(** * dictmaker: start-up code (cmd/dictmaker/init.go) and the relation graph

    A shallow embedding of the functions of [cmd/dictmaker/init.go] and of
    the relation-graph commands of the specification.

    Go values are embedded as follows.
    - A Go [error] is its message: [option string], [None] being [nil].
    - A Go interface value that may be [nil] is an [option].
    - A function returning [(T, error)] returns a pair, as in Go.
    - [map[string]T] is [gmap string T].
    - A function that logs, writes files, calls [log.Fatalf] or can panic
      runs in the monad [Proc]: it threads the process state and ends in an
      [Outcome]. *)

From Stdlib Require Import ZArith Lia DecimalString.
From stdpp Require Import base option list strings gmap fin_maps.

Local Open Scope string_scope.
Local Open Scope list_scope.

(** ** The process: outcome, state and monad *)

(** How a call ends: it returns, or the process exits through
    [log.Fatalf] (print, then [os.Exit(1)]), or it panics. *)
Inductive Outcome (A : Type) : Type :=
| Ret (a : A)
| Fatal (msg : string)
| Panic (msg : string).
Arguments Ret {A} a.
Arguments Fatal {A} msg.
Arguments Panic {A} msg.

Definition returned {A} (o : Outcome A) : bool :=
  match o with Ret _ => true | _ => false end.

(** The mutable part of the world the start-up code acts on: the lines
    printed through [logger], the regular files of the working directory
    (name to contents) and the journal of [ioutil.WriteFile] calls. *)
Record State : Type := mkState {
  logged : list string;
  disk : gmap string string;
  writes : list (string * string)
}.

Definition Proc (A : Type) : Type := State -> Outcome A * State.

Definition ret {A} (a : A) : Proc A := fun st => (Ret a, st).

Definition bind {A B} (m : Proc A) (k : A -> Proc B) : Proc B :=
  fun st =>
    match m st with
    | (Ret a, st') => k a st'
    | (Fatal msg, st') => (Fatal msg, st')
    | (Panic msg, st') => (Panic msg, st')
    end.

#[global] Instance Proc_ret : MRet Proc := @ret.
#[global] Instance Proc_bind : MBind Proc := fun A B k m => bind m k.

(** [logger.Printf]: one more line on the application logger. *)
Definition logger_Printf (line : string) : Proc unit :=
  fun st => (Ret tt, mkState (logged st ++ [line]) (disk st) (writes st)).

(** [log.Fatalf]: the process exits, nothing after it runs. *)
Definition log_Fatalf {A} (msg : string) : Proc A :=
  fun st => (Fatal msg, st).

Definition go_panic {A} (msg : string) : Proc A :=
  fun st => (Panic msg, st).

(** ** Tokenizers and plugins *)

(** Modelled from the spec: the declaration of the interface
    [data.Tokenizer] (package internal/data) is missing; the contract of
    the specification is [id() -> string] and [tokenize(text) -> tokens].
    [init.go] only calls [ID()]. *)
Record data_Tokenizer : Type := mkTokenizer {
  ID : string;
  Tokenize : string -> list string
}.

(** What [plg.Lookup] hands back, an [interface{}]: the type assertion
    [newFunc.(func() (data.Tokenizer, error))] succeeds on [SymNewFunc]
    only.  The function is kept as the result of calling it. *)
Inductive Symbol : Type :=
| SymNewFunc (f : unit -> option data_Tokenizer * option string)
| SymOther (gotype : string).

(** A loaded plugin, [*plugin.Plugin]: its plugin path and the symbols it
    exports. *)
Record Plugin : Type := mkPlugin {
  pluginpath : string;
  symbols : gmap string Symbol
}.

(** The read-only environment of the process. *)
Record Env : Type := mkEnv {
  (* plugin.Open(path) *)
  plugin_Open : string -> Plugin + string;
  (* os.Executable() *)
  os_Executable : string + string;
  (* stuffbin.UnStuff(path) *)
  stuffbin_UnStuff : string -> gmap string string + string;
  (* paths on which os.Stat fails with an error other than "not exist" *)
  stat_fault : string -> option string;
  (* paths that cannot be opened for reading *)
  read_fault : string -> option string;
  (* paths on which ioutil.WriteFile fails *)
  write_fault : string -> option string
}.

(** [Plugin.Lookup]: an error when the plugin has no such symbol. *)
Definition plugin_Lookup (plg : Plugin) (symName : string) : Symbol + string :=
  match symbols plg !! symName with
  | Some sym => inl sym
  | None =>
      inr ("plugin: symbol " +:+ symName +:+ " not found in plugin " +:+ pluginpath plg)
  end.

(** [loadTokenizerPlugin] (init.go, lines 114-137). *)
Definition loadTokenizerPlugin (env : Env) (path : string)
  : option data_Tokenizer * option string :=
  match plugin_Open env path with
  | inr err =>
      (None, Some ("error loading tokenizer plugin '" +:+ path +:+ "': " +:+ err))
  | inl plg =>
      match plugin_Lookup plg "New" with
      | inr err =>
          (None, Some ("New() function not found in plugin '" +:+ path +:+ "': " +:+ err))
      | inl newFunc =>
          match newFunc with
          | SymNewFunc f =>
              let '(p, err) := f tt in
              match err with
              | Some e =>
                  (None, Some ("error initializing provider plugin '" +:+ path +:+ "': " +:+ e))
              | None => (p, err)
              end
          | SymOther _ =>
              (None, Some ("New() function is of invalid type in plugin '" +:+ path +:+ "'"))
          end
      end
  end.

(** The four ways in which loading fails, as the source distinguishes them. *)
Definition open_fails (env : Env) (path : string) : Prop :=
  ∃ err, plugin_Open env path = inr err.

Definition New_missing (env : Env) (path : string) : Prop :=
  ∃ plg, plugin_Open env path = inl plg ∧ symbols plg !! "New" = None.

Definition New_wrong_type (env : Env) (path : string) : Prop :=
  ∃ plg ty, plugin_Open env path = inl plg ∧
            symbols plg !! "New" = Some (SymOther ty).

Definition New_returns_error (env : Env) (path : string) : Prop :=
  ∃ plg f e, plugin_Open env path = inl plg ∧
             symbols plg !! "New" = Some (SymNewFunc f) ∧
             (f tt).2 = Some e.

Definition New_succeeds (env : Env) (path : string) (p : option data_Tokenizer) : Prop :=
  ∃ plg f, plugin_Open env path = inl plg ∧
           symbols plg !! "New" = Some (SymNewFunc f) ∧
           f tt = (p, None).

(** ** Language configuration *)

(** Modelled from the spec: the declaration of [data.Lang] (package
    internal/data) is missing.  The fields are those [init.go] uses
    ([Types], [TokenizerName], [TokenizerType], [Tokenizer]) and the display
    name of the specification's Language. *)
Record data_Lang : Type := mkLang {
  Name : string;
  Types : gmap string string;
  TokenizerName : string;
  TokenizerType : string;
  Tokenizer : option data_Tokenizer
}.

Abbreviation data_LangMap := (gmap string data_Lang).

Definition set_Tokenizer (tk : option data_Tokenizer) (lang : data_Lang) : data_Lang :=
  mkLang (Name lang) (Types lang) (TokenizerName lang) (TokenizerType lang) tk.

Definition set_TokenizerName (n : string) (lang : data_Lang) : data_Lang :=
  mkLang (Name lang) (Types lang) n (TokenizerType lang) (Tokenizer lang).

(** What the configuration holds for one language: the display name, the
    entry-type labels, the tokenizer binding.  No tokenizer object can come
    from a configuration file. *)
Record LangConf : Type := mkLangConf {
  cfg_name : string;
  cfg_types : gmap string string;
  cfg_tokenizer : string;
  cfg_tokenizer_type : string
}.

(** The loaded configuration, [*koanf.Koanf]: the keys of the map at a
    path, and the decoding of the map at a path, which can fail. *)
Record Koanf : Type := mkKoanf {
  MapKeys : string -> list string;
  decode : string -> LangConf + string
}.

(** [ko.UnmarshalWithConf(path, &lang, koanf.UnmarshalConf{Tag: "json"})]:
    the fields found in the configuration are written into [lang]; entries
    decoded into a map are added to the map already there. *)
Definition UnmarshalWithConf (ko : Koanf) (path : string) (lang : data_Lang)
  : data_Lang * option string :=
  match decode ko path with
  | inr err => (lang, Some err)
  | inl c =>
      (mkLang (cfg_name c) (cfg_types c ∪ Types lang) (cfg_tokenizer c)
              (cfg_tokenizer_type c) (Tokenizer lang), None)
  end.

(** A method call on an interface value: a nil receiver panics. *)
Definition Tokenizer_ID (tk : option data_Tokenizer) : Proc string :=
  match tk with
  | Some t => mret (ID t)
  | None => go_panic "runtime error: invalid memory address or nil pointer dereference"
  end.

(** The body of the loop of [initLangs] (init.go, lines 190-210): the
    [data.Lang] stored at key [l]. *)
Definition initLangs_lang (env : Env) (ko : Koanf) (l : string) : Proc data_Lang :=
  let lang := mkLang "" ∅ "" "" None in
  let '(lang, err) := UnmarshalWithConf ko ("lang." +:+ l) lang in
  match err with
  | Some e => log_Fatalf ("error loading languages: " +:+ e)
  | None =>
      logger_Printf ("language: " +:+ l);;
      if String.eqb (TokenizerType lang) "plugin" then
        let '(tk, err) := loadTokenizerPlugin env (TokenizerName lang) in
        match err with
        | Some e =>
            log_Fatalf ("error loading tokenizer plugin for " +:+ l +:+ ": " +:+ e)
        | None =>
            let lang := set_Tokenizer tk lang in
            id ← Tokenizer_ID tk;
            let lang := set_TokenizerName id lang in
            logger_Printf ("loaded tokenizer " +:+ TokenizerName lang);;
            mret lang
        end
      else mret lang
  end.

(** [for _, l := range ko.MapKeys("lang") { ...; out[l] = lang }]. *)
Fixpoint initLangs_range (env : Env) (ko : Koanf) (keys : list string)
    (out : data_LangMap) : Proc data_LangMap :=
  match keys with
  | [] => mret out
  | l :: rest =>
      lang ← initLangs_lang env ko l;
      initLangs_range env ko rest (<[l := lang]> out)
  end.

(** [initLangs] (init.go, lines 185-216). *)
Definition initLangs (env : Env) (ko : Koanf) : Proc data_LangMap :=
  initLangs_range env ko (MapKeys ko "lang") ∅.

(** ** Files *)

(** The error of [os.Stat], as far as [os.IsNotExist] tells them apart. *)
Inductive StatError : Type :=
| ErrNotExist
| ErrOther (msg : string).

Definition os_Stat (env : Env) (name : string) : Proc (option StatError) :=
  fun st =>
    match stat_fault env name with
    | Some e => (Ret (Some (ErrOther e)), st)
    | None =>
        match disk st !! name with
        | Some _ => (Ret None, st)
        | None => (Ret (Some ErrNotExist), st)
        end
    end.

Definition os_IsNotExist (err : option StatError) : bool :=
  match err with
  | Some ErrNotExist => true
  | _ => false
  end.

(** [ioutil.WriteFile(name, data, 0644)]: every call is journalled; the
    file is created or replaced unless the call fails. *)
Definition ioutil_WriteFile (env : Env) (name data : string) : Proc (option string) :=
  fun st =>
    match write_fault env name with
    | Some e =>
        (Ret (Some e), mkState (logged st) (disk st) (writes st ++ [(name, data)]))
    | None =>
        (Ret None,
         mkState (logged st) (<[name := data]> (disk st)) (writes st ++ [(name, data)]))
    end.

(** [stuffbin.FileSystem]: an in-memory map from file name to contents. *)
Abbreviation FileSystem := (gmap string string).

Definition fs_Read (fs : FileSystem) (name : string) : string + string :=
  match fs !! name with
  | Some b => inl b
  | None => inr "file does not exist"
  end.

(** [stuffbin.NewLocalFS(rootPath, paths...)]: every path is read from the
    local disk into a new in-memory file system; the first path that cannot
    be read is the error. *)
Fixpoint stuffbin_NewLocalFS (env : Env) (d : gmap string string)
    (rootPath : string) (paths : list string) : FileSystem + string :=
  match paths with
  | [] => inl ∅
  | p :: rest =>
      match read_fault env p with
      | Some e => inr e
      | None =>
          match d !! p with
          | None => inr ("stat " +:+ p +:+ ": no such file or directory")
          | Some b =>
              match stuffbin_NewLocalFS env d rootPath rest with
              | inr e => inr e
              | inl fs => inl (<[p := b]> fs)
              end
          end
      end
  end.

Definition is_inl {A B} (x : A + B) : bool :=
  match x with inl _ => true | inr _ => false end.

(** The static assets loaded in local mode. *)
Definition asset_files : list string :=
  ["config.toml.sample"; "queries.sql"; "schema.sql"].

Definition local_disk : Proc (gmap string string) :=
  fun st => (Ret (disk st), st).

(** [initFileSystem] (init.go, lines 37-65). *)
Definition initFileSystem (env : Env) : Proc (option FileSystem * option string) :=
  match os_Executable env with
  | inr err => mret (None, Some err)
  | inl path =>
      match stuffbin_UnStuff env path with
      | inl fs => mret (Some fs, None)
      | inr err =>
          logger_Printf ("unable to initialize embedded filesystem: " +:+ err);;
          logger_Printf "using local filesystem for static assets";;
          let files := asset_files in
          d ← local_disk;
          match stuffbin_NewLocalFS env d "/" files with
          | inr err =>
              mret (None, Some ("failed to initialize local file for assets: " +:+ err))
          | inl fs => mret (Some fs, None)
          end
      end
  end.

Definition exists_error : string :=
  "config.toml exists. Remove it to generate a new one".

(** [generateNewFiles] (init.go, lines 218-241). *)
Definition generateNewFiles (env : Env) : Proc (option string) :=
  err ← os_Stat env "config.toml";
  if negb (os_IsNotExist err) then
    mret (Some exists_error)
  else
    r ← initFileSystem env;
    match r with
    | (_, Some err) => mret (Some err)
    | (None, None) =>
        go_panic "runtime error: invalid memory address or nil pointer dereference"
    | (Some fs, None) =>
        match fs_Read fs "config.toml.sample" with
        | inr err =>
            mret (Some ("error reading sample config (is binary stuffed?): " +:+ err))
        | inl b =>
            err ← ioutil_WriteFile env "config.toml" b;
            match err with
            | Some e => mret (Some e)
            | None => mret None
            end
        end
    end.

(** ** HTTP routes *)

(** The application object, as far as [initHandlers] reads it. *)
Record Consts : Type := mkConsts { Site : string }.
Record App : Type := mkApp { constants : Consts }.

(** The handler functions [init.go] names. *)
Inductive AppHandler : Type :=
| handleIndexPage
| handleSearchPage
| handleGlossaryPage
| handleStaticPage
| adminPage (tpl : string)
| handleGetConfig
| handleGetStats
| handleInsertEntry
| handleGetEntry
| handleGetParentEntries
| handleDeleteEntry
| handleDeleteRelation
| handleAddRelation
| handleReorderRelations
| handleUpdateRelation
| handleUpdateEntry
| handleSearch.

(** What is registered for a route. *)
Inductive Handler : Type :=
(* wrap(app, h) *)
| wrap (app : App) (h : AppHandler)
(* http.StripPrefix(prefix, http.FileServer(http.Dir(filepath.Join(dir...)))).ServeHTTP *)
| fileServer (prefix : string) (dir : list string)
(* func(w, r) { sendResponse(body, status, w) } *)
| respond (body : string) (status : nat).

Inductive Method : Type := GET | POST | PUT | DELETE.

Inductive Middleware : Type := StripSlashes.

Record Route : Type := mkRoute {
  method : Method;
  pattern : string;
  handler : Handler
}.

(** [*chi.Mux]: the middlewares and the routes registered so far. *)
Record Mux : Type := mkMux {
  middlewares : list Middleware;
  routes : list Route
}.

(** [r.Use(mw)] on a mux that holds no route yet: the middleware is added
    after those already there. (On a mux that holds a route chi panics;
    that case is outside this embedding.) *)
Definition Use (mw : Middleware) (r : Mux) : Mux :=
  mkMux (middlewares r ++ [mw]) (routes r).

Definition Handle (m : Method) (pat : string) (h : Handler) (r : Mux) : Mux :=
  mkMux (middlewares r) (routes r ++ [mkRoute m pat h]).

Definition Get := Handle GET.
Definition Post := Handle POST.
Definition Put := Handle PUT.
Definition Delete := Handle DELETE.

Definition http_StatusOK : nat := 200.

(** [initHandlers] (init.go, lines 140-182). *)
Definition initHandlers (r : Mux) (app : App) : Mux :=
  let r := Use StripSlashes r in
  let r :=
    if negb (String.eqb (Site (constants app)) "") then
      let r := Get "/" (wrap app handleIndexPage) r in
      let r := Get "/dictionary/{fromLang}/{toLang}/{q}" (wrap app handleSearchPage) r in
      let r := Get "/dictionary/{fromLang}/{toLang}" (wrap app handleGlossaryPage) r in
      let r := Get "/glossary/{fromLang}/{toLang}/{initial}" (wrap app handleGlossaryPage) r in
      let r := Get "/glossary/{fromLang}/{toLang}" (wrap app handleGlossaryPage) r in
      let r := Get "/pages/{page}" (wrap app handleStaticPage) r in
      let fs := fileServer "/static" [Site (constants app); "static"] in
      Get "/static/*" fs r
    else
      Get "/" (respond "welcome to dictmaker" http_StatusOK) r in
  let r := Get "/admin/static/*" (fileServer "/admin/static" ["admin/static"]) r in
  let r := Get "/admin" (wrap app (adminPage "index")) r in
  let r := Get "/admin/search" (wrap app (adminPage "search")) r in
  let r := Get "/admin/entries/{guid}" (wrap app (adminPage "entry")) r in
  let r := Get "/api/config" (wrap app handleGetConfig) r in
  let r := Get "/api/stats" (wrap app handleGetStats) r in
  let r := Post "/api/entries" (wrap app handleInsertEntry) r in
  let r := Get "/api/entries/{guid}" (wrap app handleGetEntry) r in
  let r := Get "/api/entries/{guid}/parents" (wrap app handleGetParentEntries) r in
  let r := Delete "/api/entries/{guid}" (wrap app handleDeleteEntry) r in
  let r := Delete "/api/entries/{fromGuid}/relations/{toGuid}" (wrap app handleDeleteRelation) r in
  let r := Post "/api/entries/{fromGuid}/relations/{toGuid}" (wrap app handleAddRelation) r in
  let r := Put "/api/entries/{guid}/relations/weights" (wrap app handleReorderRelations) r in
  let r := Put "/api/entries/{guid}/relations/{relID}" (wrap app handleUpdateRelation) r in
  let r := Put "/api/entries/{guid}" (wrap app handleUpdateEntry) r in
  Get "/api/dictionary/{fromLang}/{toLang}/{q}" (wrap app handleSearch) r.

(** The patterns of the dictionary site views. *)
Definition site_patterns : list string :=
  ["/"; "/dictionary/{fromLang}/{toLang}/{q}"; "/dictionary/{fromLang}/{toLang}";
   "/glossary/{fromLang}/{toLang}/{initial}"; "/glossary/{fromLang}/{toLang}";
   "/pages/{page}"; "/static/*"].

Definition is_site_view (h : Handler) : bool :=
  match h with
  | wrap _ handleIndexPage | wrap _ handleSearchPage
  | wrap _ handleGlossaryPage | wrap _ handleStaticPage => true
  | fileServer "/static" _ => true
  | _ => false
  end.

Definition admin_routes (app : App) : list Route :=
  [mkRoute GET "/admin/static/*" (fileServer "/admin/static" ["admin/static"]);
   mkRoute GET "/admin" (wrap app (adminPage "index"));
   mkRoute GET "/admin/search" (wrap app (adminPage "search"));
   mkRoute GET "/admin/entries/{guid}" (wrap app (adminPage "entry"))].

Definition api_routes (app : App) : list Route :=
  [mkRoute GET "/api/config" (wrap app handleGetConfig);
   mkRoute GET "/api/stats" (wrap app handleGetStats);
   mkRoute POST "/api/entries" (wrap app handleInsertEntry);
   mkRoute GET "/api/entries/{guid}" (wrap app handleGetEntry);
   mkRoute GET "/api/entries/{guid}/parents" (wrap app handleGetParentEntries);
   mkRoute DELETE "/api/entries/{guid}" (wrap app handleDeleteEntry);
   mkRoute DELETE "/api/entries/{fromGuid}/relations/{toGuid}" (wrap app handleDeleteRelation);
   mkRoute POST "/api/entries/{fromGuid}/relations/{toGuid}" (wrap app handleAddRelation);
   mkRoute PUT "/api/entries/{guid}/relations/weights" (wrap app handleReorderRelations);
   mkRoute PUT "/api/entries/{guid}/relations/{relID}" (wrap app handleUpdateRelation);
   mkRoute PUT "/api/entries/{guid}" (wrap app handleUpdateEntry);
   mkRoute GET "/api/dictionary/{fromLang}/{toLang}/{q}" (wrap app handleSearch)].

Definition site_routes (app : App) : list Route :=
  [mkRoute GET "/" (wrap app handleIndexPage);
   mkRoute GET "/dictionary/{fromLang}/{toLang}/{q}" (wrap app handleSearchPage);
   mkRoute GET "/dictionary/{fromLang}/{toLang}" (wrap app handleGlossaryPage);
   mkRoute GET "/glossary/{fromLang}/{toLang}/{initial}" (wrap app handleGlossaryPage);
   mkRoute GET "/glossary/{fromLang}/{toLang}" (wrap app handleGlossaryPage);
   mkRoute GET "/pages/{page}" (wrap app handleStaticPage);
   mkRoute GET "/static/*" (fileServer "/static" [Site (constants app); "static"])].

Definition greeting : Route :=
  mkRoute GET "/" (respond "welcome to dictmaker" http_StatusOK).

(** Registering a list of routes, one [Handle] call each, in order. *)
Definition register_all (regs : list Route) (r : Mux) : Mux :=
  foldl (fun r rt => Handle (method rt) (pattern rt) (handler rt) r) r regs.

(** The routes a call of [initHandlers] adds to the mux it is given. *)
Definition registered (r : Mux) (app : App) : list Route :=
  drop (length (routes r)) (routes (initHandlers r app)).

(** ** The relation graph *)

(** The commands [addRelation] and [reorderRelations] are served by
    [handleAddRelation] and [handleReorderRelations], which [init.go] only
    registers; their code is in no source file at hand. *)

(** Modelled from the spec: the error taxonomy of section 7; no source
    file declares it. *)
Inductive Error : Type :=
| ValidationError
| NotFound
| Conflict
| UnknownLanguage
| StorageFailure.

(** Modelled from the spec: an Entry of section 3 (identifier, language
    code, content, entry type); tags and metadata play no part here. *)
Record Entry : Type := mkEntry {
  guid : string;
  entryLang : string;
  content : string;
  entryType : string
}.

(** Modelled from the spec: a Relation of section 3, the directed edge
    [{fromEntryID, toEntryID, relationType, weight, note}], with the
    identifier [reorderRelations] names it by. *)
Record Relation : Type := mkRelation {
  relID : nat;
  fromGuid : string;
  toGuid : string;
  relType : string;
  weight : Z;
  note : string
}.

(** Modelled from the spec: the store of the RelationGraph, entries and
    relations in creation order, and the next free relation identifier. *)
Record Graph : Type := mkGraph {
  entries : list Entry;
  relations : list Relation;
  nextRelID : nat
}.

Definition has_entry (g : Graph) (id : string) : bool :=
  existsb (fun e => String.eqb (guid e) id) (entries g).

Definition in_group (from ty : string) (r : Relation) : bool :=
  String.eqb (fromGuid r) from && String.eqb (relType r) ty.

(** Modelled from the spec: the (fromGuid, type) group of section 3, the
    siblings in creation order; the code that reads it is missing. *)
Definition group (g : Graph) (from ty : string) : list Relation :=
  List.filter (in_group from ty) (relations g).

Definition same_triple (from to ty : string) (r : Relation) : bool :=
  String.eqb (fromGuid r) from && String.eqb (toGuid r) to
  && String.eqb (relType r) ty.

(** The maximum of a list of weights, none for the empty list. *)
Fixpoint max_weight (ws : list Z) : option Z :=
  match ws with
  | [] => None
  | w :: rest =>
      match max_weight rest with
      | None => Some w
      | Some m => Some (Z.max w m)
      end
  end.

(** Modelled from the spec: the weight [addRelation] gives, "current max
    weight in the group + 1 (or 0 if the group is empty)"; its code is
    missing. *)
Definition next_weight (g : Graph) (from ty : string) : Z :=
  match max_weight (weight <$> group g from ty) with
  | None => 0%Z
  | Some m => (m + 1)%Z
  end.

(** Modelled from the spec: [addRelation(fromGuid, toGuid, type, note)] of
    section 4.2, whose code is missing: [NotFound] if an endpoint is
    missing, [Conflict] if the same (fromGuid, toGuid, type) relation
    exists, else the new relation is appended with the next weight of its
    group. *)
Definition addRelation (g : Graph) (from to ty nt : string) : Graph + Error :=
  if negb (has_entry g from && has_entry g to) then inr NotFound
  else if existsb (same_triple from to ty) (relations g) then inr Conflict
  else
    let r := mkRelation (nextRelID g) from to ty (next_weight g from ty) nt in
    inl (mkGraph (entries g) (relations g ++ [r]) (S (nextRelID g))).

(** Modelled from the spec: the "N sequential addRelation calls" of
    section 8 into one group, one call per target, stopping at the first
    failure; no source file has such a caller. *)
Fixpoint addRelations (g : Graph) (from ty : string) (tos : list string)
  : Graph + Error :=
  match tos with
  | [] => inl g
  | to :: rest =>
      match addRelation g from to ty "" with
      | inr e => inr e
      | inl g' => addRelations g' from ty rest
      end
  end.

Definition names_relation (from : string) (id : nat) (r : Relation) : bool :=
  String.eqb (fromGuid r) from && Nat.eqb (relID r) id.

Definition put_weight (w : Z) (r : Relation) : Relation :=
  mkRelation (relID r) (fromGuid r) (toGuid r) (relType r) w (note r).

(** Modelled from the spec: one write of [reorderRelations], whose code is
    missing: the relation [id] of entry [from] gets weight [pos]. *)
Definition set_weight (from : string) (id : nat) (pos : nat) (r : Relation) : Relation :=
  if names_relation from id r then put_weight (Z.of_nat pos) r else r.

(** Modelled from the spec: what the persistence layer keeps to undo one
    write of a transaction (section 5), the weights the rows named by
    [id] had before it; no source file has the layer. *)
Definition before_images (from : string) (id : nat) (rels : list Relation) : list Z :=
  weight <$> List.filter (names_relation from id) rels.

(** Modelled from the spec: undoing one write, the rows named by [id]
    get their former weights back, in row order. *)
Fixpoint restore (from : string) (id : nat) (ws : list Z) (rels : list Relation)
  : list Relation :=
  match rels with
  | [] => []
  | r :: rest =>
      if names_relation from id r then
        match ws with
        | w :: ws' => put_weight w r :: restore from id ws' rest
        | [] => r :: restore from id [] rest
        end
      else r :: restore from id ws rest
  end.

(** Modelled from the spec: a transaction of the persistence layer
    (sections 5 and 6, "transactional multi-write"): the rows as written
    so far and the undo records of its writes, the latest first. *)
Record Tx : Type := mkTx {
  live : list Relation;
  undo_log : list (nat * list Z)
}.

Definition tx_begin (rels : list Relation) : Tx := mkTx rels [].

Definition tx_update (from : string) (id pos : nat) (tx : Tx) : Tx :=
  mkTx (set_weight from id pos <$> live tx)
       ((id, before_images from id (live tx)) :: undo_log tx).

(** Rolling back: the writes are undone, the latest first. *)
Definition tx_rollback (from : string) (tx : Tx) : list Relation :=
  foldl (fun rels u => restore from u.1 u.2 rels) (live tx) (undo_log tx).

(** Modelled from the spec: the writes of [reorderRelations], whose code
    is missing: the identifiers are taken in order, each rewritten to its
    0-based position; [fault k] tells whether the persistence layer fails
    on write number [k] ([StorageFailure]), which stops the writes. The
    boolean tells whether all writes were made. *)
Fixpoint tx_reorder (from : string) (fault : nat -> bool) (pos : nat)
    (ids : list nat) (tx : Tx) : Tx * bool :=
  match ids with
  | [] => (tx, true)
  | id :: rest =>
      if fault pos then (tx, false)
      else tx_reorder from fault (S pos) rest (tx_update from id pos tx)
  end.

(** Every listed identifier names a relation of the entry. *)
Definition all_found (from : string) (ids : list nat) (rels : list Relation) : bool :=
  forallb (fun id => existsb (names_relation from id) rels) ids.

(** Modelled from the spec: "validate the supplied set is exactly the
    sibling group" (section 4.2): no identifier is listed twice, and the
    relations of the entry that the list names are exactly those of one
    relation type, the type of the first one listed. *)
Definition is_sibling_group (from : string) (ids : list nat) (rels : list Relation)
  : bool :=
  bool_decide (NoDup ids) &&
  match ids with
  | [] => true
  | id0 :: _ =>
      match List.find (names_relation from id0) rels with
      | None => false
      | Some r0 =>
          forallb (fun r =>
                     negb (String.eqb (fromGuid r) from)
                     || Bool.eqb (existsb (Nat.eqb (relID r)) ids)
                                 (String.eqb (relType r) (relType r0)))
                  rels
      end
  end.

(** Modelled from the spec: [reorderRelations(guid, orderedRelationIDs)]
    of section 4.2, whose code is missing: [NotFound] for a missing entry
    or relation, [ValidationError] for a list that is not exactly a sibling
    group, else one transaction that rewrites the weight of every listed
    relation to its 0-based position; when the persistence layer fails on
    a write the transaction is rolled back and [StorageFailure] is
    returned (section 7). *)
Definition reorderRelations (fault : nat -> bool) (g : Graph) (id : string)
    (ids : list nat) : Graph * option Error :=
  if negb (has_entry g id) then (g, Some NotFound)
  else if negb (all_found id ids (relations g)) then (g, Some NotFound)
  else if negb (is_sibling_group id ids (relations g)) then (g, Some ValidationError)
  else
    let '(tx, ok) := tx_reorder id fault 0 ids (tx_begin (relations g)) in
    if ok then (mkGraph (entries g) (live tx) (nextRelID g), None)
    else (mkGraph (entries g) (tx_rollback id tx) (nextRelID g), Some StorageFailure).

(** A persistence layer that does not fail. *)
Definition no_storage_fault (k : nat) : bool := false.

(** Modelled from the spec: the invariant of section 3, "within one
    (fromEntryID, relationType) group, weights strictly order siblings",
    for the groups of one entry: two different siblings never tie. *)
Definition no_ties (g : Graph) (from : string) : Prop :=
  ∀ r1 r2, r1 ∈ relations g → r2 ∈ relations g →
    fromGuid r1 = from → fromGuid r2 = from → relType r1 = relType r2 →
    relID r1 ≠ relID r2 → weight r1 ≠ weight r2.

(** Two relations that differ at most in their weight. *)
Definition same_edge (r r' : Relation) : Prop :=
  relID r' = relID r ∧ fromGuid r' = fromGuid r ∧ toGuid r' = toGuid r ∧
  relType r' = relType r ∧ note r' = note r.

(** What one relation looks like after the writes for [ids], numbered
    from [pos]: it is the same edge; when [ids] names it, its weight is the
    position of its last occurrence; when not, its weight is the old one. *)
Definition reordered (from : string) (pos : nat) (ids : list nat)
    (r r' : Relation) : Prop :=
  same_edge r r' ∧
  (fromGuid r = from → relID r ∈ ids →
     ∃ i, ids !! i = Some (relID r) ∧ weight r' = Z.of_nat (pos + i) ∧
          ∀ j : nat, ids !! j = Some (relID r) → (j ≤ i)%nat) ∧
  (¬ (fromGuid r = from ∧ relID r ∈ ids) → weight r' = weight r).

(** ** Database connection *)

(** [fmt.Sprintf]'s [%d]: a signed decimal numeral. *)
Definition fmt_d (n : Z) : string := NilZero.string_of_int (Z.to_int n).

(** A connection handle, [*sqlx.DB]: the driver and the data source name
    it was opened with. *)
Record DB : Type := mkDB {
  driverName : string;
  dataSourceName : string
}.

(** [connectDB] (init.go, lines 25-33); [sqlx_Connect] is
    [sqlx.Connect(driverName, dataSourceName)]. *)
Definition connectDB (sqlx_Connect : string -> string -> DB + string)
    (host : string) (port : Z) (user pwd dbName : string)
  : option DB * option string :=
  match sqlx_Connect "postgres"
          ("host=" +:+ host +:+ " port=" +:+ fmt_d port +:+ " user=" +:+ user
           +:+ " password=" +:+ pwd +:+ " dbname=" +:+ dbName
           +:+ " sslmode=disable") with
  | inr err => (None, Some err)
  | inl db => (Some db, None)
  end.

(** ** Templates *)

(** The helper functions [loadSiteTheme] registers. *)
Inductive TemplateFunc : Type :=
| strings_Join
| strings_ToUpper
| strings_ToLower
| strings_Title
| UnicodeURL.

(** [*template.Template]: its name, its function map and the templates
    defined in it (name to body). *)
Record Template : Type := mkTemplate {
  tplName : string;
  tplFuncs : gmap string TemplateFunc;
  tplDefs : gmap string string
}.

Definition template_New (name : string) : Template := mkTemplate name ∅ ∅.

(** [t.Funcs(funcMap)]: the entries of [funcMap] are added to the function
    map of [t], replacing those of the same name. *)
Definition Funcs (funcMap : gmap string TemplateFunc) (t : Template) : Template :=
  mkTemplate (tplName t) (funcMap ∪ tplFuncs t) (tplDefs t).

(** The template files on disk, as [ParseGlob] sees them: for the
    functions callable at parse time and a glob pattern, the definitions
    parsed, in order, and the error that stopped the parsing, if any. *)
Record TemplateFiles : Type := mkTemplateFiles {
  glob_parse : gmap string TemplateFunc -> string -> list (string * string) * option string
}.

(** [t.ParseGlob(pattern)]: the parsed definitions are added to [t]; the
    result is [t] after the call and the error. *)
Definition ParseGlob (tf : TemplateFiles) (pattern : string) (t : Template)
  : Template * option string :=
  let '(defs, err) := glob_parse tf (tplFuncs t) pattern in
  (mkTemplate (tplName t) (tplFuncs t)
     (foldl (fun m d => <[d.1 := d.2]> m) (tplDefs t) defs),
   err).

(** [loadSiteTheme] (init.go, lines 68-101). *)
Definition loadSiteTheme (tf : TemplateFiles) (path : string) (loadPages : bool)
  : Template * option string :=
  let t := template_New "theme" in
  let t := Funcs {[ "JoinStrings" := strings_Join ]} t in
  let t := Funcs {[ "ToUpper" := strings_ToUpper ]} t in
  let t := Funcs {[ "ToLower" := strings_ToLower ]} t in
  let t := Funcs {[ "Title" := strings_Title ]} t in
  let t := Funcs {[ "UnicodeURL" := UnicodeURL ]} t in
  let '(t, err) := ParseGlob tf (path +:+ "/*.html") t in
  match err with
  | Some e => (t, Some e)
  | None =>
      if loadPages then
        let '(t, err) := ParseGlob tf (path +:+ "/pages/*.html") t in
        match err with
        | Some e => (t, Some e)
        | None => (t, None)
        end
      else (t, None)
  end.

(** [initAdminTemplates] (init.go, lines 104-110). *)
Definition initAdminTemplates (tf : TemplateFiles) (path : string) : Proc Template :=
  let '(t, err) := ParseGlob tf (path +:+ "/*.html") (template_New "admin") in
  match err with
  | Some e => log_Fatalf ("error loading admin templates: " +:+ e)
  | None => mret t
  end.

(** The function map of a site theme. *)
Definition theme_funcs : gmap string TemplateFunc :=
  {[ "UnicodeURL" := UnicodeURL; "Title" := strings_Title;
     "ToLower" := strings_ToLower; "ToUpper" := strings_ToUpper;
     "JoinStrings" := strings_Join ]}.

(** ** Properties of a start-up run *)

(** A language that loads: it decodes and, for tokenizer type "plugin",
    its plugin yields a tokenizer. *)
Definition loads_ok (env : Env) (ko : Koanf) (l : string) : Prop :=
  ∃ c, decode ko ("lang." +:+ l) = inl c ∧
       (cfg_tokenizer_type c = "plugin" →
          ∃ tk, loadTokenizerPlugin env (cfg_tokenizer c) = (Some tk, None)).

Definition nil_dereference : string :=
  "runtime error: invalid memory address or nil pointer dereference".

(** The lines [initFileSystem] logs when it falls back to local mode. *)
Definition local_mode_lines (e : string) : list string :=
  ["unable to initialize embedded filesystem: " +:+ e;
   "using local filesystem for static assets"].

#[global] Instance Method_eq_dec : EqDecision Method.
Proof. solve_decision. Defined.

(** What identifies a route in the mux: its method and pattern. *)
Definition route_key (rt : Route) : Method * string := (method rt, pattern rt).

(** ** Sample inputs *)

Definition tk_indicphone : data_Tokenizer :=
  mkTokenizer "indicphone_ml" (fun text => [text]).

Definition plugin_good : Plugin :=
  mkPlugin "plugin/unnamed-ml" {[ "New" := SymNewFunc (fun _ => (Some tk_indicphone, None)) ]}.

Definition plugin_failing : Plugin :=
  mkPlugin "plugin/unnamed-kn" {[ "New" := SymNewFunc (fun _ => (None, Some "no ruleset")) ]}.

Definition open_sample (path : string) : Plugin + string :=
  if String.eqb path "indicphone_ml.tk" then inl plugin_good
  else if String.eqb path "indicphone_kn.tk" then inl plugin_failing
  else inr "plugin.Open: realpath failed".

Definition no_fault (path : string) : option string := None.

(** A stuffed binary: [UnStuff] finds the embedded assets. *)
Definition env_stuffed : Env :=
  mkEnv open_sample (inl "/usr/bin/dictmaker")
        (fun _ => inl {[ "config.toml.sample" := "[app]" ]})
        no_fault no_fault no_fault.

(** A plain binary: [UnStuff] fails. *)
Definition env_plain : Env :=
  mkEnv open_sample (inl "/usr/bin/dictmaker")
        (fun _ => inr "stuffbin: no stuffed data")
        no_fault no_fault no_fault.

(** A process whose executable path cannot be determined. *)
Definition env_no_exe : Env :=
  mkEnv open_sample (inr "readlink /proc/self/exe: permission denied")
        (fun _ => inr "stuffbin: no stuffed data")
        no_fault no_fault no_fault.

Definition disk_assets : gmap string string :=
  {[ "config.toml.sample" := "[app]"; "queries.sql" := "-- queries";
     "schema.sql" := "-- schema" ]}.

Definition st_assets : State := mkState [] disk_assets [].

Definition st_configured : State :=
  mkState [] (<["config.toml" := "[app] # mine"]> disk_assets) [].

Definition conf_english : LangConf :=
  mkLangConf "English" {[ "noun" := "Noun" ]} "english" "postgres".

Definition conf_malayalam : LangConf :=
  mkLangConf "Malayalam" {[ "noun" := "Namam" ]} "indicphone_ml.tk" "plugin".

Definition conf_kannada : LangConf :=
  mkLangConf "Kannada" ∅ "indicphone_kn.tk" "plugin".

Definition decode_sample (path : string) : LangConf + string :=
  if String.eqb path "lang.english" then inl conf_english
  else if String.eqb path "lang.malayalam" then inl conf_malayalam
  else if String.eqb path "lang.kannada" then inl conf_kannada
  else inr "types: expected a map, got string".

Definition ko_sample : Koanf :=
  mkKoanf (fun path => if String.eqb path "lang" then ["english"; "malayalam"] else [])
          decode_sample.

Definition ko_failing_plugin : Koanf :=
  mkKoanf (fun path => if String.eqb path "lang" then ["english"; "kannada"] else [])
          decode_sample.

Definition ko_malformed : Koanf :=
  mkKoanf (fun path => if String.eqb path "lang" then ["english"; "tamil"] else [])
          decode_sample.

(** The example of section 8 of the specification: run, sprint, jog. *)
Definition g_run : Graph :=
  mkGraph [mkEntry "1" "en" "run" "word"; mkEntry "2" "en" "sprint" "word";
           mkEntry "3" "en" "jog" "word"] [] 0.

Definition g_run_synonyms : Graph :=
  mkGraph (entries g_run)
          [mkRelation 0 "1" "2" "synonym" 0 ""; mkRelation 1 "1" "3" "synonym" 1 ""] 2.

(** The same graph after [reorderRelations("1", [1; 0])]: jog first. *)
Definition g_run_reordered : Graph :=
  mkGraph (entries g_run)
          [mkRelation 0 "1" "2" "synonym" 1 ""; mkRelation 1 "1" "3" "synonym" 0 ""] 2.

(** Run with two synonyms, a translation, and a synonym of sprint. *)
Definition g_mixed : Graph :=
  mkGraph (entries g_run)
          [mkRelation 0 "1" "2" "synonym" 0 ""; mkRelation 1 "1" "3" "synonym" 1 "";
           mkRelation 2 "1" "3" "translation" 0 ""; mkRelation 3 "2" "3" "synonym" 0 ""]
          4.

(** The same graph after [reorderRelations("1", [1; 0])]. *)
Definition g_mixed_reordered : Graph :=
  mkGraph (entries g_run)
          [mkRelation 0 "1" "2" "synonym" 1 ""; mkRelation 1 "1" "3" "synonym" 0 "";
           mkRelation 2 "1" "3" "translation" 0 ""; mkRelation 3 "2" "3" "synonym" 0 ""]
          4.

(** A persistence layer that fails on the second write of a transaction. *)
Definition fault_second (k : nat) : bool := Nat.eqb k 1.

(** A plugin whose [New] returns neither a tokenizer nor an error. *)
Definition plugin_nil : Plugin :=
  mkPlugin "plugin/unnamed-nil" {[ "New" := SymNewFunc (fun _ => (None, None)) ]}.

Definition env_nil_plugin : Env :=
  mkEnv (fun _ => inl plugin_nil) (inl "/usr/bin/dictmaker")
        (fun _ => inr "stuffbin: no stuffed data") no_fault no_fault no_fault.

(** The same languages as [ko_sample], listed the other way round. *)
Definition ko_sample_rev : Koanf :=
  mkKoanf (fun path => if String.eqb path "lang" then ["malayalam"; "english"] else [])
          decode_sample.

(** A process that may not stat config.toml. *)
Definition env_stat_denied : Env :=
  mkEnv open_sample (inl "/usr/bin/dictmaker")
        (fun _ => inr "stuffbin: no stuffed data")
        (fun p => if String.eqb p "config.toml" then Some "permission denied" else None)
        no_fault no_fault.

(** A working directory without schema.sql. *)
Definition st_no_schema : State :=
  mkState [] {[ "config.toml.sample" := "[app]"; "queries.sql" := "-- queries" ]} [].

(** A site directory with a theme, and pages that do not parse. *)
Definition tf_sample : TemplateFiles :=
  mkTemplateFiles (fun _ pattern =>
    if String.eqb pattern "site/*.html" then ([("index", "<h1>dict</h1>")], None)
    else if String.eqb pattern "site/pages/*.html"
         then ([], Some "template: about.html:1: unexpected EOF")
    else ([], Some "html/template: pattern matches no files")).

(** A configuration with English only, tokenized by the database. *)
Definition ko_english : Koanf :=
  mkKoanf (fun path => if String.eqb path "lang" then ["english"] else [])
          decode_sample.

(** An empty working directory. *)
Definition st_empty : State := mkState [] ∅ [].

(** ** Theorems *)

Ltac route_cases H :=
  apply list_elem_of_In in H; simpl in H;
  repeat (destruct H as [H|H]; [subst|]); [..|destruct H].


(** C2. [loadTokenizerPlugin path] returns an error, and then no
    tokenizer, exactly when the plugin cannot be opened, or it has no
    symbol [New], or [New] is not a [func() (data.Tokenizer, error)], or
    [New()] returns an error; otherwise it returns what [New()] produced. *)
Theorem loadTokenizerPlugin_error_iff (env : Env) (path : string) :
  ((loadTokenizerPlugin env path).2 ≠ None ↔
     open_fails env path ∨ New_missing env path ∨
     New_wrong_type env path ∨ New_returns_error env path)
  ∧ ((loadTokenizerPlugin env path).2 ≠ None →
     (loadTokenizerPlugin env path).1 = None)
  ∧ ((loadTokenizerPlugin env path).2 = None →
     ∃ p, New_succeeds env path p ∧ loadTokenizerPlugin env path = (p, None)).
Proof.
  unfold loadTokenizerPlugin, plugin_Lookup, open_fails, New_missing,
    New_wrong_type, New_returns_error, New_succeeds.
  destruct (plugin_Open env path) as [plg|err] eqn:Hopen.
  2:{ split_and!; [split|..]; simpl; try done. intros _. left. eauto. }
  destruct (symbols plg !! "New") as [[f|ty]|] eqn:Hsym.
  - destruct (f tt) as [p [e|]] eqn:Hf; simpl.
    + split_and!; [split|..]; try done. intros _.
      do 3 right. exists plg, f, e. by rewrite Hf.
    + split_and!; [split|..]; try done.
      * intros [[? ?]|[(?&?&?)|[(?&?&?&?)|(plg'&f'&e'&H1&H2&H3)]]];
          simplify_eq. rewrite Hf in H3. done.
      * intros _. exists p. split; [|done]. exists plg, f. by rewrite Hf.
  - simpl. split_and!; [split|..]; try done. intros _.
    right; right; left. eauto.
  - simpl. split_and!; [split|..]; try done. intros _.
    right; left. eauto.
Qed.

Lemma loadTokenizerPlugin_error_iff_witness :
  (loadTokenizerPlugin env_stuffed "indicphone_kn.tk").1 = None
  ∧ ∃ p, New_succeeds env_stuffed "indicphone_ml.tk" p ∧
         loadTokenizerPlugin env_stuffed "indicphone_ml.tk" = (p, None).
Proof.
  split.
  - apply (loadTokenizerPlugin_error_iff env_stuffed "indicphone_kn.tk").
    vm_compute. discriminate.
  - apply (loadTokenizerPlugin_error_iff env_stuffed "indicphone_ml.tk").
    vm_compute. reflexivity.
Defined.

(** The failures, one by one. *)
Example loadTokenizerPlugin_failures :
  loadTokenizerPlugin env_stuffed "missing.tk" =
    (None, Some "error loading tokenizer plugin 'missing.tk': plugin.Open: realpath failed")
  ∧ loadTokenizerPlugin env_stuffed "indicphone_kn.tk" =
    (None, Some "error initializing provider plugin 'indicphone_kn.tk': no ruleset")
  ∧ loadTokenizerPlugin (mkEnv (fun _ => inl (mkPlugin "plugin/unnamed-empty" ∅))
                               (inr "") (fun _ => inr "")
                               no_fault no_fault no_fault) "empty.tk" =
    (None, Some ("New() function not found in plugin 'empty.tk': "
                 +:+ "plugin: symbol New not found in plugin plugin/unnamed-empty"))
  ∧ loadTokenizerPlugin
      (mkEnv (fun _ => inl (mkPlugin "plugin/unnamed-other"
                                     {[ "New" := SymOther "func() string" ]}))
             (inr "") (fun _ => inr "") no_fault no_fault no_fault) "other.tk" =
    (None, Some "New() function is of invalid type in plugin 'other.tk'").
Proof. split_and!; vm_compute; reflexivity. Qed.

(** *** Language start-up *)

Lemma bind_Ret {A B} (m : Proc A) (k : A -> Proc B) st b st' :
  (m ≫= k) st = (Ret b, st') →
  ∃ a st1, m st = (Ret a, st1) ∧ k a st1 = (Ret b, st').
Proof.
  unfold mbind, Proc_bind, bind.
  destruct (m st) as [[a|msg|msg] st1]; intros H; try discriminate.
  eauto.
Qed.

Section LangStartup.
Context (env : Env) (ko : Koanf).

Lemma UnmarshalWithConf_fresh path c :
  decode ko path = inl c →
  UnmarshalWithConf ko path (mkLang "" ∅ "" "" None) =
    (mkLang (cfg_name c) (cfg_types c) (cfg_tokenizer c) (cfg_tokenizer_type c) None,
     None).
Proof.
  intros H. unfold UnmarshalWithConf. rewrite H. simpl.
  by rewrite (right_id_L ∅ (∪)).
Qed.

(** What one turn of the loop stores, when it gets as far as storing. *)
Lemma initLangs_lang_ret l st lang st' :
  initLangs_lang env ko l st = (Ret lang, st') →
  ∃ c, decode ko ("lang." +:+ l) = inl c ∧
       Name lang = cfg_name c ∧ Types lang = cfg_types c ∧
       TokenizerType lang = cfg_tokenizer_type c ∧
       if String.eqb (cfg_tokenizer_type c) "plugin"
       then ∃ tk, loadTokenizerPlugin env (cfg_tokenizer c) = (Some tk, None) ∧
                  Tokenizer lang = Some tk ∧ TokenizerName lang = ID tk
       else TokenizerName lang = cfg_tokenizer c ∧ Tokenizer lang = None.
Proof.
  unfold initLangs_lang.
  destruct (decode ko ("lang." +:+ l)) as [c|e] eqn:Hdec.
  2:{ unfold UnmarshalWithConf. rewrite Hdec. discriminate. }
  rewrite (UnmarshalWithConf_fresh _ _ Hdec). simpl.
  intros H. exists c. split; [done|].
  destruct (String.eqb (cfg_tokenizer_type c) "plugin") eqn:Hty.
  - destruct (loadTokenizerPlugin env (cfg_tokenizer c)) as [tk [e|]] eqn:Hload;
      [discriminate|].
    destruct tk as [t|]; [|discriminate].
    injection H as <- _. simpl. split_and!; try done. by exists t.
  - injection H as <- _. done.
Qed.

Lemma initLangs_lang_decode_error l e st :
  decode ko ("lang." +:+ l) = inr e →
  initLangs_lang env ko l st = (Fatal ("error loading languages: " +:+ e), st).
Proof.
  intros H. unfold initLangs_lang, UnmarshalWithConf. by rewrite H.
Qed.

Lemma initLangs_lang_plugin_error l c e st :
  decode ko ("lang." +:+ l) = inl c →
  cfg_tokenizer_type c = "plugin" →
  (loadTokenizerPlugin env (cfg_tokenizer c)).2 = Some e →
  ∃ st',
    initLangs_lang env ko l st =
      (Fatal ("error loading tokenizer plugin for " +:+ l +:+ ": " +:+ e), st').
Proof.
  intros Hdec Hty Hload. unfold initLangs_lang.
  rewrite (UnmarshalWithConf_fresh _ _ Hdec). simpl. rewrite Hty. simpl.
  destruct (loadTokenizerPlugin env (cfg_tokenizer c)) as [tk err].
  simpl in Hload. subst err. eauto.
Qed.

(** The loop: a returned map holds, at every key of the range, what the
    turn for that key stored, and is the initial map elsewhere. *)
Lemma initLangs_range_ret keys :
  ∀ out st res st',
    initLangs_range env ko keys out st = (Ret res, st') →
    ∀ l, (l ∈ keys → ∃ lang s1 s2,
             initLangs_lang env ko l s1 = (Ret lang, s2) ∧ res !! l = Some lang)
         ∧ (l ∉ keys → res !! l = out !! l).
Proof.
  induction keys as [|k rest IH]; intros out st res st' H l.
  - injection H as <- _. split; [intros Hin; inversion Hin | done].
  - simpl in H. apply bind_Ret in H as (lang & st1 & Hk & Hrest).
    destruct (IH _ _ _ _ Hrest l) as [IHin IHout].
    destruct (decide (l ∈ rest)) as [Hl|Hl].
    + split; [intros _; by apply IHin |].
      intros Hn. apply not_elem_of_cons in Hn as [_ Hn]. done.
    + split.
      * intros Hin. apply elem_of_cons in Hin as [->|Hin]; [|done].
        exists lang, st, st1. split; [done|].
        rewrite (IHout Hl). apply lookup_insert_eq.
      * intros Hn. apply not_elem_of_cons in Hn as [Hne _].
        rewrite (IHout Hl). by apply lookup_insert_ne.
Qed.

(** A turn that does not return ends the loop there or earlier. *)
Lemma initLangs_range_halts keys l :
  l ∈ keys →
  (∀ st, returned (initLangs_lang env ko l st).1 = false) →
  ∀ out st, returned (initLangs_range env ko keys out st).1 = false.
Proof.
  intros Hin Hl out st.
  destruct (initLangs_range env ko keys out st) as [[res|msg|msg] st'] eqn:H;
    try done.
  destruct (initLangs_range_ret _ _ _ _ _ H l) as [Hres _].
  destruct (Hres Hin) as (lang & s1 & s2 & Hret & _).
  specialize (Hl s1). by rewrite Hret in Hl.
Qed.

(** The loop returns when every turn does. *)
Lemma initLangs_range_returns keys :
  (∀ l, l ∈ keys → ∀ st, returned (initLangs_lang env ko l st).1 = true) →
  ∀ out st, returned (initLangs_range env ko keys out st).1 = true.
Proof.
  induction keys as [|k rest IH]; intros Hall out st; [done|].
  simpl. unfold mbind, Proc_bind, bind.
  pose proof (Hall k (list_elem_of_here k rest) st) as Hk.
  destruct (initLangs_lang env ko k st) as [[lang|msg|msg] st1]; try done.
  apply IH. intros l Hl. apply Hall. by apply list_elem_of_further.
Qed.

(** C1. If the plugin of a language configured with tokenizer type
    "plugin" fails to load, [initLangs] does not return: the process
    halts, and no language map is produced. *)
Theorem initLangs_plugin_failure_fatal (st : State) (l : string)
    (c : LangConf) (e : string) :
  l ∈ MapKeys ko "lang" →
  decode ko ("lang." +:+ l) = inl c →
  cfg_tokenizer_type c = "plugin" →
  (loadTokenizerPlugin env (cfg_tokenizer c)).2 = Some e →
  returned (initLangs env ko st).1 = false ∧
  (∀ out st', initLangs env ko st ≠ (Ret out, st')) ∧
  ∀ s, ∃ s', initLangs_lang env ko l s =
    (Fatal ("error loading tokenizer plugin for " +:+ l +:+ ": " +:+ e), s').
Proof.
  intros Hin Hdec Hty Hload.
  assert (Hfatal : ∀ s, ∃ s', initLangs_lang env ko l s =
    (Fatal ("error loading tokenizer plugin for " +:+ l +:+ ": " +:+ e), s')).
  { intros s. by eapply initLangs_lang_plugin_error. }
  assert (Hhalt : returned (initLangs env ko st).1 = false).
  { apply (initLangs_range_halts _ l Hin).
    intros s. destruct (Hfatal s) as [s' ->]. done. }
  split_and!; [done| |done].
  intros out st' Heq. rewrite Heq in Hhalt. done.
Qed.

(** C3. In a returned language map, a language of tokenizer type "plugin"
    carries the loaded tokenizer and is named by that tokenizer's [ID()],
    not by the configured file name; any other language keeps the
    configured tokenizer name and carries no tokenizer. *)
Theorem initLangs_tokenizer_name (st st' : State)
    (out : data_LangMap) (l : string) (c : LangConf) :
  initLangs env ko st = (Ret out, st') →
  l ∈ MapKeys ko "lang" →
  decode ko ("lang." +:+ l) = inl c →
  ∃ lang, out !! l = Some lang ∧
    (cfg_tokenizer_type c = "plugin" →
       ∃ tk, loadTokenizerPlugin env (cfg_tokenizer c) = (Some tk, None) ∧
             TokenizerName lang = ID tk ∧ Tokenizer lang = Some tk) ∧
    (cfg_tokenizer_type c ≠ "plugin" →
       TokenizerName lang = cfg_tokenizer c ∧ Tokenizer lang = None).
Proof.
  intros Hret Hin Hdec.
  destruct (initLangs_range_ret _ _ _ _ _ Hret l) as [Hl _].
  destruct (Hl Hin) as (lang & s1 & s2 & Hlang & Hout).
  apply initLangs_lang_ret in Hlang as (c' & Hdec' & _ & _ & _ & Htk).
  rewrite Hdec in Hdec'. injection Hdec' as <-.
  exists lang. split; [done|]. split.
  - intros Hty. rewrite Hty in Htk. simpl in Htk.
    destruct Htk as (tk & ? & ? & ?). by exists tk.
  - intros Hty. apply String.eqb_neq in Hty. by rewrite Hty in Htk.
Qed.

(** A turn returns when the language decodes and, for tokenizer type
    "plugin", the plugin yields a tokenizer. *)
Lemma initLangs_lang_returns l c st :
  decode ko ("lang." +:+ l) = inl c →
  (cfg_tokenizer_type c = "plugin" →
     ∃ tk, loadTokenizerPlugin env (cfg_tokenizer c) = (Some tk, None)) →
  returned (initLangs_lang env ko l st).1 = true.
Proof.
  intros Hdec Hplug. unfold initLangs_lang.
  rewrite (UnmarshalWithConf_fresh _ _ Hdec). simpl.
  destruct (String.eqb (cfg_tokenizer_type c) "plugin") eqn:Hty; [|done].
  apply String.eqb_eq in Hty. destruct (Hplug Hty) as [tk ->]. done.
Qed.

(** C6. A language map returned by [initLangs] has exactly the language
    codes configured under "lang" as its keys, each entry carrying the
    configured display name and entry-type labels; a language that fails
    to decode halts the process; and [initLangs] does return when every
    language decodes and every plugin loads. *)
Theorem initLangs_one_entry_per_language (st : State) :
  (∀ out st', initLangs env ko st = (Ret out, st') →
     dom out =@{gset string} list_to_set (MapKeys ko "lang") ∧
     ∀ l, l ∈ MapKeys ko "lang" →
       ∃ c lang, decode ko ("lang." +:+ l) = inl c ∧ out !! l = Some lang ∧
                 Name lang = cfg_name c ∧ Types lang = cfg_types c)
  ∧ (∀ l e, l ∈ MapKeys ko "lang" → decode ko ("lang." +:+ l) = inr e →
       returned (initLangs env ko st).1 = false)
  ∧ ((∀ l, l ∈ MapKeys ko "lang" →
        ∃ c, decode ko ("lang." +:+ l) = inl c ∧
             (cfg_tokenizer_type c = "plugin" →
                ∃ tk, loadTokenizerPlugin env (cfg_tokenizer c) = (Some tk, None))) →
     returned (initLangs env ko st).1 = true).
Proof.
  split_and!.
  - intros out st' Hret.
    pose proof (initLangs_range_ret _ _ _ _ _ Hret) as Hkeys. split.
    + apply set_eq. intros l.
      rewrite elem_of_dom, elem_of_list_to_set.
      destruct (Hkeys l) as [Hin Hout]. split.
      * intros Hsome. destruct (decide (l ∈ MapKeys ko "lang")) as [|Hn]; [done|].
        rewrite (Hout Hn), lookup_empty in Hsome. by destruct Hsome.
      * intros Hl. destruct (Hin Hl) as (lang & _ & _ & _ & ->). eauto.
    + intros l Hl. destruct (Hkeys l) as [Hin _].
      destruct (Hin Hl) as (lang & s1 & s2 & Hlang & Hout).
      apply initLangs_lang_ret in Hlang as (c & Hdec & Hname & Htypes & _).
      by exists c, lang.
  - intros l e Hl Hdec.
    apply (initLangs_range_halts _ l Hl).
    intros s. by rewrite (initLangs_lang_decode_error _ _ _ Hdec).
  - intros Hall. apply initLangs_range_returns.
    intros l Hl s. destruct (Hall l Hl) as (c & Hdec & Hplug).
    by eapply initLangs_lang_returns.
Qed.

End LangStartup.

Lemma initLangs_plugin_failure_fatal_witness :
  returned (initLangs env_stuffed ko_failing_plugin st_assets).1 = false.
Proof.
  apply (initLangs_plugin_failure_fatal env_stuffed ko_failing_plugin st_assets
           "kannada" conf_kannada
           "error initializing provider plugin 'indicphone_kn.tk': no ruleset").
  - simpl. apply list_elem_of_further, list_elem_of_here.
  - reflexivity.
  - reflexivity.
  - vm_compute. reflexivity.
Defined.

Lemma initLangs_tokenizer_name_witness :
  ∃ out lang, (initLangs env_stuffed ko_sample st_assets).1 = Ret out ∧
    out !! "malayalam" = Some lang ∧ TokenizerName lang = "indicphone_ml".
Proof.
  destruct (initLangs env_stuffed ko_sample st_assets) as [o s'] eqn:Hrun.
  assert (Ho : returned o = true).
  { change o with (o, s').1. rewrite <- Hrun. vm_compute. reflexivity. }
  destruct o as [out|msg|msg]; try discriminate.
  destruct (initLangs_tokenizer_name env_stuffed ko_sample st_assets s' out
              "malayalam" conf_malayalam Hrun) as (lang & Hout & Hplug & _).
  - simpl. apply list_elem_of_further, list_elem_of_here.
  - reflexivity.
  - destruct (Hplug eq_refl) as (tk & Hload & Hname & _).
    vm_compute in Hload. injection Hload as <-.
    exists out, lang. done.
Defined.

Lemma initLangs_one_entry_per_language_witness :
  (∃ out, (initLangs env_stuffed ko_sample st_assets).1 = Ret out ∧
          dom out =@{gset string} {[ "english"; "malayalam" ]})
  ∧ returned (initLangs env_stuffed ko_malformed st_assets).1 = false.
Proof.
  destruct (initLangs_one_entry_per_language env_stuffed ko_sample st_assets)
    as (Hret & _ & _).
  destruct (initLangs_one_entry_per_language env_stuffed ko_malformed st_assets)
    as (_ & Hhalt & _).
  split.
  - destruct (initLangs env_stuffed ko_sample st_assets) as [o s'] eqn:Hrun.
    assert (Ho : returned o = true).
    { change o with (o, s').1. rewrite <- Hrun. vm_compute. reflexivity. }
    destruct o as [out|msg|msg]; try discriminate.
    exists out. split; [done|].
    destruct (Hret out s' eq_refl) as [-> _]. simpl.
    apply set_eq. intros x. rewrite !elem_of_union, !elem_of_singleton.
    rewrite elem_of_empty. tauto.
  - apply (Hhalt "tamil" "types: expected a map, got string").
    + simpl. apply list_elem_of_further, list_elem_of_here.
    + reflexivity.
Defined.

(** *** Asset files *)

(** A local file system holds exactly the named files, as they are on
    disk. *)
Lemma stuffbin_NewLocalFS_ok env d root paths :
  ∀ fs, stuffbin_NewLocalFS env d root paths = inl fs →
    dom fs =@{gset string} list_to_set paths ∧
    ∀ p, p ∈ paths → is_Some (d !! p) ∧ fs !! p = d !! p.
Proof.
  induction paths as [|p rest IH]; intros fs H; simpl in H.
  - injection H as <-. split; [by rewrite dom_empty_L|].
    intros p Hp. inversion Hp.
  - destruct (read_fault env p); [discriminate|].
    destruct (d !! p) as [b|] eqn:Hp; [|discriminate].
    destruct (stuffbin_NewLocalFS env d root rest) as [fs0|e]; [|discriminate].
    injection H as <-. destruct (IH fs0 eq_refl) as [Hdom Hfiles]. split.
    + rewrite dom_insert_L, Hdom. done.
    + intros q Hq. destruct (decide (q = p)) as [->|Hne].
      * rewrite lookup_insert_eq, Hp. eauto.
      * rewrite lookup_insert_ne by done. apply Hfiles.
        apply elem_of_cons in Hq as [?|?]; done.
Qed.

(** Local mode, in one equation. *)
Lemma initFileSystem_local env st path e :
  os_Executable env = inl path →
  stuffbin_UnStuff env path = inr e →
  initFileSystem env st =
    let st' := mkState
      ((logged st ++ ["unable to initialize embedded filesystem: " +:+ e])
         ++ ["using local filesystem for static assets"])
      (disk st) (writes st) in
    match stuffbin_NewLocalFS env (disk st) "/" asset_files with
    | inr err =>
        (Ret (None, Some ("failed to initialize local file for assets: " +:+ err)), st')
    | inl fs => (Ret (Some fs, None), st')
    end.
Proof.
  intros Hexe Hun. unfold initFileSystem. rewrite Hexe, Hun.
  unfold mbind, Proc_bind, bind, logger_Printf, local_disk.
  cbv beta iota zeta. cbn [disk logged writes].
  by destruct (stuffbin_NewLocalFS env (disk st) "/" asset_files).
Qed.

(** [initFileSystem] always returns, and touches nothing but the log. *)
Lemma initFileSystem_frame env st :
  ∃ r st', initFileSystem env st = (Ret r, st') ∧
           disk st' = disk st ∧ writes st' = writes st.
Proof.
  destruct (os_Executable env) as [path|e] eqn:Hexe.
  2:{ unfold initFileSystem. rewrite Hexe. by eexists _, _. }
  destruct (stuffbin_UnStuff env path) as [fs|e] eqn:Hun.
  { unfold initFileSystem. rewrite Hexe, Hun. by eexists _, _. }
  rewrite (initFileSystem_local _ _ _ _ Hexe Hun).
  destruct (stuffbin_NewLocalFS env (disk st) "/" asset_files); by eexists _, _.
Qed.

(** C8, as the code has it. When the path of the executable cannot be
    determined, that error is returned and no fallback is tried. Otherwise
    the embedded file system is returned when it can be extracted; when it
    cannot, that failure is logged, not returned, and the result is a local
    file system holding exactly config.toml.sample, queries.sql and
    schema.sql, or the error of building it. *)
Theorem initFileSystem_embedded_or_local (env : Env) (st : State) :
  (∀ e, os_Executable env = inr e →
     initFileSystem env st = (Ret (None, Some e), st))
  ∧ (∀ path fs, os_Executable env = inl path →
       stuffbin_UnStuff env path = inl fs →
       initFileSystem env st = (Ret (Some fs, None), st))
  ∧ (∀ path e, os_Executable env = inl path →
       stuffbin_UnStuff env path = inr e →
       (∃ fs, stuffbin_NewLocalFS env (disk st) "/" asset_files = inl fs ∧
              (initFileSystem env st).1 = Ret (Some fs, None) ∧
              dom fs =@{gset string} list_to_set asset_files ∧
              ∀ p, p ∈ asset_files → fs !! p = disk st !! p)
       ∨ (∃ e', stuffbin_NewLocalFS env (disk st) "/" asset_files = inr e' ∧
                (initFileSystem env st).1 =
                  Ret (None, Some ("failed to initialize local file for assets: " +:+ e'))))
  ∧ (∀ r, (initFileSystem env st).1 = Ret r →
       (r.2 ≠ None ↔
          (∃ e, os_Executable env = inr e) ∨
          (∃ path e e', os_Executable env = inl path ∧
                        stuffbin_UnStuff env path = inr e ∧
                        stuffbin_NewLocalFS env (disk st) "/" asset_files = inr e'))).
Proof.
  destruct (os_Executable env) as [path|e0] eqn:Hexe.
  2:{ unfold initFileSystem. rewrite Hexe.
      split_and!; try (intros; simplify_eq; done).
      intros r Hr. simpl in Hr. injection Hr as <-. simpl. split; [eauto|done]. }
  destruct (stuffbin_UnStuff env path) as [fs|e0] eqn:Hun.
  { unfold initFileSystem. rewrite Hexe, Hun. split_and!.
    - intros; simplify_eq.
    - intros p' fs' [= <-] Hun'. rewrite Hun in Hun'. by injection Hun' as <-.
    - intros p' e' [= <-] Hun'. rewrite Hun in Hun'. discriminate.
    - intros r Hr. simpl in Hr. injection Hr as <-. simpl. split; [done|].
      intros [[? ?]|(p'&?&?&[= <-]&Hun'&?)]; [discriminate|].
      rewrite Hun in Hun'. discriminate. }
  rewrite (initFileSystem_local _ _ _ _ Hexe Hun). cbv zeta.
  destruct (stuffbin_NewLocalFS env (disk st) "/" asset_files) as [fs|e'] eqn:Hloc.
  - split_and!.
    + intros; simplify_eq.
    + intros p' fs' [= <-] Hun'. rewrite Hun in Hun'. discriminate.
    + intros ? ? _ _. left. exists fs. split; [done|]. split; [done|].
      destruct (stuffbin_NewLocalFS_ok _ _ _ _ _ Hloc) as [Hdom Hfiles].
      split; [done|]. intros p Hp. by apply Hfiles.
    + intros r Hr. simpl in Hr. injection Hr as <-. simpl. split; [done|].
      intros [[? ?]|(?&?&?&?&?&?)]; simplify_eq.
  - split_and!.
    + intros; simplify_eq.
    + intros p' fs' [= <-] Hun'. rewrite Hun in Hun'. discriminate.
    + intros ? ? _ _. right. by exists e'.
    + intros r Hr. simpl in Hr. injection Hr as <-. simpl. split; [|done].
      intros _. right. by exists path, e0, e'.
Qed.

Lemma initFileSystem_embedded_or_local_witness :
  ∃ fs, (initFileSystem env_plain st_assets).1 = Ret (Some fs, None) ∧
        dom fs =@{gset string} list_to_set asset_files.
Proof.
  destruct (initFileSystem_embedded_or_local env_plain st_assets)
    as (_ & _ & Hlocal & _).
  destruct (Hlocal "/usr/bin/dictmaker" "stuffbin: no stuffed data" eq_refl eq_refl)
    as [(fs & _ & Hret & Hdom & _)|(e' & Hloc & _)].
  - by exists fs.
  - assert (Hok : is_inl (stuffbin_NewLocalFS env_plain (disk st_assets) "/" asset_files)
                  = true) by (vm_compute; reflexivity).
    rewrite Hloc in Hok. discriminate.
Defined.

(** C8, counterexample: with the executable path unknown, an error is
    returned although building the local file system succeeds on the same
    disk; the state is untouched, nothing is logged, no fallback is tried. *)
Lemma initFileSystem_error_without_fallback :
  initFileSystem env_no_exe st_assets =
    (Ret (None, Some "readlink /proc/self/exe: permission denied"), st_assets)
  ∧ is_inl (stuffbin_NewLocalFS env_no_exe (disk st_assets) "/" asset_files) = true.
Proof.
  split; [reflexivity|].
  vm_compute. reflexivity.
Qed.

(** *** Generating config.toml *)

Lemma os_Stat_existing env st name :
  is_Some (disk st !! name) →
  ∃ err, os_Stat env name st = (Ret err, st) ∧ os_IsNotExist err = false.
Proof.
  intros [b Hb]. unfold os_Stat. rewrite Hb.
  destruct (stat_fault env name); eauto.
Qed.

Lemma os_Stat_not_exist env st name err st' :
  os_Stat env name st = (Ret err, st') →
  os_IsNotExist err = true →
  st' = st ∧ disk st !! name = None.
Proof.
  unfold os_Stat.
  destruct (stat_fault env name); [intros [= <- <-]; done|].
  destruct (disk st !! name); intros [= <- <-]; done.
Qed.

Lemma os_Stat_returns env st name :
  ∃ err, os_Stat env name st = (Ret err, st).
Proof.
  unfold os_Stat. destruct (stat_fault env name); [eauto|].
  destruct (disk st !! name); eauto.
Qed.

(** C7. With a config.toml on disk, [generateNewFiles] returns an error
    and leaves the whole state as it was: no write is made. In any run,
    either nothing is written, or config.toml did not exist and the one
    write made is that of config.toml with the contents of
    config.toml.sample in the asset file system; the file is then on disk
    with those contents when the call returns no error. *)
Theorem generateNewFiles_keeps_existing (env : Env) (st : State) :
  (is_Some (disk st !! "config.toml") →
     generateNewFiles env st = (Ret (Some exists_error), st))
  ∧ (∀ o st', generateNewFiles env st = (o, st') →
       (disk st' = disk st ∧ writes st' = writes st)
       ∨ (disk st !! "config.toml" = None ∧
          ∃ (fs : FileSystem) (b : string) s1,
            initFileSystem env st = (Ret (Some fs, None), s1) ∧
            fs !! "config.toml.sample" = Some b ∧
            writes st' = writes st ++ [("config.toml", b)] ∧
                     (o = Ret None → disk st' = <["config.toml" := b]> (disk st)) ∧
                     (o ≠ Ret None → disk st' = disk st))).
Proof.
  split.
  - intros Hex. unfold generateNewFiles, mbind, Proc_bind, bind.
    destruct (os_Stat_existing env st _ Hex) as (err & -> & ->). done.
  - intros o st'.
    unfold generateNewFiles, mbind, Proc_bind, bind, mret, Proc_ret, ret.
    destruct (os_Stat_returns env st "config.toml") as [err Hstat].
    rewrite Hstat.
    destruct (os_IsNotExist err) eqn:Hne; simpl.
    2:{ intros [= <- <-]. by left. }
    destruct (os_Stat_not_exist _ _ _ _ _ Hstat Hne) as [_ Hnone].
    destruct (initFileSystem_frame env st) as ([fs err'] & s1 & Hfs & Hd & Hw).
    rewrite Hfs.
    destruct err' as [e|]; [destruct fs; intros [= <- <-]; by left|].
    destruct fs as [fs|]; [|intros [= <- <-]; by left].
    unfold fs_Read.
    destruct (fs !! "config.toml.sample") as [b|] eqn:Hb;
      [|intros [= <- <-]; by left].
    unfold ioutil_WriteFile.
    destruct (write_fault env "config.toml") as [e|];
      intros [= <- <-];
      right; (split; [done|]); exists fs, b, s1; simpl; rewrite Hd, Hw;
      split_and!; done.
Qed.

Lemma generateNewFiles_keeps_existing_witness :
  generateNewFiles env_stuffed st_configured = (Ret (Some exists_error), st_configured)
  ∧ disk st_configured !! "config.toml" = Some "[app] # mine".
Proof.
  split; [|reflexivity].
  apply (generateNewFiles_keeps_existing env_stuffed st_configured).
  exists "[app] # mine". reflexivity.
Defined.

(** A run that writes: in local mode, without a config.toml, the sample is
    copied. *)
Example generateNewFiles_writes_sample :
  (generateNewFiles env_plain st_assets).1 = Ret None ∧
  disk (generateNewFiles env_plain st_assets).2 !! "config.toml" = Some "[app]" ∧
  writes (generateNewFiles env_plain st_assets).2 = [("config.toml", "[app]")].
Proof. split_and!; vm_compute; reflexivity. Qed.

(** *** Routes *)

Lemma register_all_routes regs :
  ∀ r, routes (register_all regs r) = routes r ++ regs.
Proof.
  induction regs as [|rt regs IH]; intros r.
  - simpl. by rewrite app_nil_r.
  - change (register_all (rt :: regs) r)
      with (register_all regs (Handle (method rt) (pattern rt) (handler rt) r)).
    rewrite IH. simpl. rewrite <- app_assoc. by destruct rt.
Qed.

(** [initHandlers] is a sequence of registrations. *)
Lemma initHandlers_register_all r app :
  initHandlers r app =
    register_all
      ((if String.eqb (Site (constants app)) "" then [greeting] else site_routes app)
         ++ admin_routes app ++ api_routes app)
      (Use StripSlashes r).
Proof.
  unfold initHandlers. destruct (String.eqb (Site (constants app)) ""); reflexivity.
Qed.

(** What [initHandlers] adds, in the order of registration. *)
Lemma registered_eq r app :
  routes (initHandlers r app) = routes r ++ registered r app ∧
  registered r app =
    (if String.eqb (Site (constants app)) "" then [greeting] else site_routes app)
      ++ admin_routes app ++ api_routes app.
Proof.
  unfold registered.
  rewrite initHandlers_register_all, register_all_routes. simpl routes.
  by rewrite drop_app_length.
Qed.

(** C9. The site views (index, /dictionary, /glossary, /pages, /static)
    are among the routes [initHandlers] registers exactly when
    [app.constants.Site] is not empty; when it is empty the only route
    registered on a site pattern is the greeting at "/"; the admin routes
    and the /api routes are registered in both cases. *)
Theorem initHandlers_site_routes_iff (r : Mux) (app : App) :
  routes (initHandlers r app) = routes r ++ registered r app
  ∧ (Site (constants app) ≠ "" ↔ site_routes app ⊆ registered r app)
  ∧ (Site (constants app) ≠ "" ↔
       ∃ rt, rt ∈ registered r app ∧ is_site_view (handler rt) = true)
  ∧ (Site (constants app) = "" →
       greeting ∈ registered r app ∧
       ∀ rt, rt ∈ registered r app → pattern rt ∈ site_patterns → rt = greeting)
  ∧ admin_routes app ⊆ registered r app
  ∧ api_routes app ⊆ registered r app.
Proof.
  destruct (registered_eq r app) as [Hroutes Hreg].
  split; [done|]. rewrite Hreg. clear Hroutes Hreg.
  destruct (String.eqb (Site (constants app)) "") eqn:Hsite.
  - apply String.eqb_eq in Hsite. split_and!.
    + split; [done|]. intros Hsub. exfalso.
      assert (Hin : mkRoute GET "/pages/{page}" (wrap app handleStaticPage)
                      ∈ [greeting] ++ admin_routes app ++ api_routes app).
      { apply Hsub, list_elem_of_In. simpl. tauto. }
      route_cases Hin; discriminate.
    + split; [done|]. intros (rt & Hin & Hview). exfalso.
      route_cases Hin; discriminate.
    + intros _. split; [apply list_elem_of_here|].
      intros rt Hin Hpat. route_cases Hin; try done;
        route_cases Hpat; discriminate.
    + intros rt Hin. apply elem_of_app. right. apply elem_of_app. by left.
    + intros rt Hin. apply elem_of_app. right. apply elem_of_app. by right.
  - apply String.eqb_neq in Hsite. split_and!.
    + split; [|done]. intros _ rt Hin. apply elem_of_app. by left.
    + split; [|done]. intros _.
      exists (mkRoute GET "/" (wrap app handleIndexPage)).
      split; [apply list_elem_of_here|done].
    + done.
    + intros rt Hin. apply elem_of_app. right. apply elem_of_app. by left.
    + intros rt Hin. apply elem_of_app. right. apply elem_of_app. by right.
Qed.

Lemma initHandlers_site_routes_iff_witness :
  greeting ∈ registered (mkMux [] []) (mkApp (mkConsts ""))
  ∧ site_routes (mkApp (mkConsts "site")) ⊆
      registered (mkMux [] []) (mkApp (mkConsts "site")).
Proof.
  split.
  - destruct (initHandlers_site_routes_iff (mkMux [] []) (mkApp (mkConsts "")))
      as (_ & _ & _ & Hplain & _).
    by destruct (Hplain eq_refl).
  - destruct (initHandlers_site_routes_iff (mkMux [] []) (mkApp (mkConsts "site")))
      as (_ & Hsite & _).
    apply Hsite. simpl. discriminate.
Defined.

(** *** Relation weights *)

Lemma max_weight_None ws : max_weight ws = None ↔ ws = [].
Proof.
  destruct ws as [|w rest]; simpl; [done|].
  destruct (max_weight rest); split; discriminate.
Qed.

(** [max_weight] is the greatest weight of the list. *)
Lemma max_weight_Some ws :
  ∀ m, max_weight ws = Some m → m ∈ ws ∧ ∀ w, w ∈ ws → (w ≤ m)%Z.
Proof.
  induction ws as [|w rest IH]; intros m H; simpl in H; [discriminate|].
  destruct (max_weight rest) as [m0|] eqn:Hrest.
  - injection H as <-. destruct (IH m0 eq_refl) as [Hin Hle]. split.
    + destruct (Z.max_spec w m0) as [[_ ->]|[_ ->]];
        [by apply list_elem_of_further | apply list_elem_of_here].
    + intros x Hx. apply elem_of_cons in Hx as [->|Hx]; [lia|].
      specialize (Hle x Hx). lia.
  - injection H as <-. apply max_weight_None in Hrest as ->.
    split; [apply list_elem_of_here|].
    intros x Hx. apply elem_of_cons in Hx as [->|Hx]; [lia|inversion Hx].
Qed.

Lemma max_weight_snoc ws w :
  max_weight (ws ++ [w]) =
    Some (match max_weight ws with None => w | Some m => Z.max m w end).
Proof.
  induction ws as [|x rest IH]; simpl; [done|].
  rewrite IH. destruct (max_weight rest); f_equal; lia.
Qed.

Lemma max_weight_dense k :
  max_weight (Z.of_nat <$> seq 0 (S k)) = Some (Z.of_nat k).
Proof.
  induction k as [|k IH]; [done|].
  rewrite seq_S, fmap_app.
  change (Z.of_nat <$> [0 + S k]) with [Z.of_nat (S k)].
  rewrite max_weight_snoc, IH. f_equal. lia.
Qed.

(** In a group whose weights are 0..k-1 the next weight is k. *)
Lemma next_weight_dense g from ty k :
  weight <$> group g from ty = Z.of_nat <$> seq 0 k →
  next_weight g from ty = Z.of_nat k.
Proof.
  intros H. unfold next_weight. rewrite H.
  destruct k as [|k]; [done|]. rewrite max_weight_dense. lia.
Qed.

Lemma addRelation_ok g from to ty nt g' :
  addRelation g from to ty nt = inl g' →
  has_entry g from = true ∧ has_entry g to = true ∧
  existsb (same_triple from to ty) (relations g) = false ∧
  g' = mkGraph (entries g)
         (relations g ++ [mkRelation (nextRelID g) from to ty (next_weight g from ty) nt])
         (S (nextRelID g)).
Proof.
  unfold addRelation.
  destruct (has_entry g from); [|discriminate].
  destruct (has_entry g to); [|discriminate]. simpl.
  destruct (existsb _ _); [discriminate|].
  intros [= <-]. done.
Qed.

Lemma in_group_new from to ty id w nt :
  in_group from ty (mkRelation id from to ty w nt) = true.
Proof. unfold in_group. simpl. by rewrite !String.eqb_refl. Qed.

Lemma group_snoc g from ty r n :
  in_group from ty r = true →
  group (mkGraph (entries g) (relations g ++ [r]) n) from ty = group g from ty ++ [r].
Proof.
  intros H. unfold group. simpl. rewrite List.filter_app. simpl. by rewrite H.
Qed.

(** A target no sibling points to raises no conflict. *)
Lemma no_conflict_fresh_target g from to ty :
  to ∉ toGuid <$> group g from ty →
  existsb (same_triple from to ty) (relations g) = false.
Proof.
  intros Hfresh. destruct (existsb _ _) eqn:Hex; [|done].
  apply List.existsb_exists in Hex as (r & Hin & Htriple). exfalso.
  unfold same_triple in Htriple.
  apply andb_prop in Htriple as [Hft Hty].
  apply andb_prop in Hft as [Hfrom Hto].
  apply String.eqb_eq in Hto. apply Hfresh. rewrite <- Hto.
  apply list_elem_of_fmap_2, list_elem_of_In. unfold group.
  apply List.filter_In. split; [done|]. unfold in_group. by rewrite Hfrom, Hty.
Qed.

(** Sequential insertions into a group whose weights are 0..k-1. *)
Lemma addRelations_dense from ty tos :
  ∀ g k,
    has_entry g from = true →
    Forall (fun to => has_entry g to = true) tos →
    NoDup tos →
    (∀ to, to ∈ tos → to ∉ toGuid <$> group g from ty) →
    weight <$> group g from ty = Z.of_nat <$> seq 0 k →
    ∃ g', addRelations g from ty tos = inl g' ∧
          weight <$> group g' from ty = Z.of_nat <$> seq 0 (k + length tos) ∧
          toGuid <$> group g' from ty = (toGuid <$> group g from ty) ++ tos.
Proof.
  induction tos as [|to rest IH]; intros g k Hfrom Hall Hnd Hfresh Hw.
  - exists g. simpl. by rewrite Nat.add_0_r, app_nil_r.
  - apply Forall_cons in Hall as [Hto Hall].
    apply NoDup_cons in Hnd as [Hnotin Hnd].
    simpl. unfold addRelation at 1. rewrite Hfrom, Hto. simpl.
    rewrite (no_conflict_fresh_target g from to ty)
      by (apply Hfresh, list_elem_of_here).
    rewrite (next_weight_dense _ _ _ _ Hw).
    set (r := mkRelation (nextRelID g) from to ty (Z.of_nat k) "").
    set (g1 := mkGraph (entries g) (relations g ++ [r]) (S (nextRelID g))).
    assert (Hgroup : group g1 from ty = group g from ty ++ [r])
      by apply group_snoc, in_group_new.
    destruct (IH g1 (S k)) as (g' & Hrun & Hweights & Htargets).
    + done.
    + done.
    + done.
    + intros to' Hin. rewrite Hgroup, fmap_app. simpl.
      intros Hmem. apply elem_of_app in Hmem as [Hmem|Hmem].
      * by apply (Hfresh to' (list_elem_of_further _ _ _ Hin)).
      * apply elem_of_cons in Hmem as [->|Hmem]; [done|inversion Hmem].
    + rewrite Hgroup, fmap_app, Hw, seq_S, fmap_app. done.
    + exists g'. split; [done|]. split.
      * rewrite Hweights. f_equal. f_equal. simpl. lia.
      * rewrite Htargets, Hgroup, fmap_app, <- app_assoc. done.
Qed.

(** C4. [addRelation] appends a relation whose weight is 0 in an empty
    group and the greatest weight of the group plus 1 otherwise; N
    sequential insertions into an empty group, towards N distinct existing
    entries, all succeed and leave the weights 0..N-1 in call order;
    repeating an insertion fails with [Conflict]. *)
Theorem addRelation_next_weight (g : Graph) (from ty : string) :
  (∀ to nt g', addRelation g from to ty nt = inl g' →
     ∃ r, relations g' = relations g ++ [r] ∧
          fromGuid r = from ∧ toGuid r = to ∧ relType r = ty ∧ note r = nt ∧
          ((group g from ty = [] ∧ weight r = 0%Z) ∨
           (∃ m, m ∈ weight <$> group g from ty ∧
                 (∀ w, w ∈ weight <$> group g from ty → (w ≤ m)%Z) ∧
                 weight r = (m + 1)%Z)))
  ∧ (∀ tos, has_entry g from = true →
       Forall (fun to => has_entry g to = true) tos →
       NoDup tos →
       group g from ty = [] →
       ∃ g', addRelations g from ty tos = inl g' ∧
             weight <$> group g' from ty = Z.of_nat <$> seq 0 (length tos) ∧
             toGuid <$> group g' from ty = tos)
  ∧ (∀ to nt nt' g', addRelation g from to ty nt = inl g' →
       addRelation g' from to ty nt' = inr Conflict).
Proof.
  split_and!.
  - intros to nt g' Hadd.
    apply addRelation_ok in Hadd as (_ & _ & _ & ->). simpl.
    eexists. split; [done|]. simpl. split_and!; try done.
    unfold next_weight.
    destruct (max_weight (weight <$> group g from ty)) as [m|] eqn:Hmax.
    + right. exists m. destruct (max_weight_Some _ _ Hmax). done.
    + left. apply max_weight_None in Hmax.
      by apply fmap_nil_inv in Hmax.
  - intros tos Hfrom Hall Hnd Hempty.
    destruct (addRelations_dense from ty tos g 0 Hfrom Hall Hnd) as (g' & ? & ? & Ht).
    + intros to _. rewrite Hempty. simpl. intros Hin. inversion Hin.
    + by rewrite Hempty.
    + exists g'. rewrite Hempty in Ht. done.
  - intros to nt nt' g' Hadd.
    apply addRelation_ok in Hadd as (Hfrom & Hto & _ & ->).
    unfold addRelation, has_entry in *. simpl. rewrite Hfrom, Hto. simpl.
    rewrite List.existsb_app. simpl. unfold same_triple at 2. simpl.
    rewrite !String.eqb_refl. simpl. by rewrite orb_true_r.
Qed.

Lemma addRelation_next_weight_witness :
  (∃ g', addRelations g_run "1" "synonym" ["2"; "3"] = inl g' ∧
         weight <$> group g' "1" "synonym" = [0; 1]%Z ∧
         toGuid <$> group g' "1" "synonym" = ["2"; "3"])
  ∧ addRelation g_run_synonyms "1" "3" "synonym" "again" = inr Conflict.
Proof.
  destruct (addRelation_next_weight g_run "1" "synonym") as (_ & Hmany & _).
  split.
  - apply (Hmany ["2"; "3"]).
    + reflexivity.
    + repeat constructor.
    + repeat constructor; rewrite ?elem_of_cons, ?elem_of_nil; intuition discriminate.
    + reflexivity.
  - destruct (addRelation_next_weight
                (mkGraph (entries g_run) [mkRelation 0 "1" "2" "synonym" 0 ""] 1)
                "1" "synonym") as (_ & _ & Hagain).
    apply (Hagain "3" "" "again" g_run_synonyms). reflexivity.
Defined.

(** *** Reordering *)

Lemma names_relation_true from id r :
  names_relation from id r = true ↔ fromGuid r = from ∧ relID r = id.
Proof.
  unfold names_relation.
  rewrite andb_true_iff, String.eqb_eq, Nat.eqb_eq. done.
Qed.

Lemma set_weight_same_edge from id pos r : same_edge r (set_weight from id pos r).
Proof. unfold set_weight, same_edge. by destruct (names_relation from id r). Qed.

Lemma set_weight_weight from id pos r :
  weight (set_weight from id pos r) =
    if names_relation from id r then Z.of_nat pos else weight r.
Proof. unfold set_weight. by destruct (names_relation from id r). Qed.

Lemma names_relation_set_weight from id id' pos r :
  names_relation from id' (set_weight from id pos r) = names_relation from id' r.
Proof. unfold set_weight. by destruct (names_relation from id r). Qed.

Lemma listed_iff (n : nat) (ids : list nat) :
  existsb (Nat.eqb n) ids = true ↔ n ∈ ids.
Proof.
  rewrite List.existsb_exists, list_elem_of_In. split.
  - intros (m & Hin & Heq). apply Nat.eqb_eq in Heq. by subst.
  - intros Hin. exists n. split; [done|]. apply Nat.eqb_refl.
Qed.

(** Undoing a write right after it gives the rows back. *)
Lemma restore_before_images from id pos rels :
  restore from id (before_images from id rels) (set_weight from id pos <$> rels) = rels.
Proof.
  unfold before_images. induction rels as [|r rest IH]; [done|].
  cbn [fmap list_fmap restore List.filter].
  rewrite names_relation_set_weight.
  destruct (names_relation from id r) eqn:Hn.
  - cbn [fmap list_fmap]. f_equal; [|exact IH].
    unfold set_weight. rewrite Hn. by destruct r.
  - f_equal; [|exact IH]. unfold set_weight. by rewrite Hn.
Qed.

(** A write does not change what a rollback gives. *)
Lemma tx_rollback_update from id pos tx :
  tx_rollback from (tx_update from id pos tx) = tx_rollback from tx.
Proof.
  unfold tx_rollback, tx_update. cbn [live undo_log foldl fst snd].
  by rewrite restore_before_images.
Qed.

(** However far the writes get, rolling back gives the rows the
    transaction started from. *)
Lemma tx_reorder_rollback from fault ids :
  ∀ pos tx tx' ok,
    tx_reorder from fault pos ids tx = (tx', ok) →
    tx_rollback from tx' = tx_rollback from tx.
Proof.
  induction ids as [|id rest IH]; intros pos tx tx' ok H; simpl in H.
  - by injection H as <- _.
  - destruct (fault pos); [by injection H as <- _|].
    rewrite (IH _ _ _ _ H). apply tx_rollback_update.
Qed.

(** The writes are all made when the persistence layer fails on none. *)
Lemma tx_reorder_completes from fault ids :
  ∀ pos tx,
    (∀ k, (pos ≤ k < pos + length ids)%nat → fault k = false) →
    ∃ tx', tx_reorder from fault pos ids tx = (tx', true).
Proof.
  induction ids as [|id rest IH]; intros pos tx Hfault; simpl; [eauto|].
  rewrite (Hfault pos) by (simpl; lia).
  apply IH. intros k Hk. apply Hfault. simpl. lia.
Qed.

(** The rows after all the writes. *)
Lemma tx_reorder_reordered from fault ids :
  ∀ pos tx tx',
    tx_reorder from fault pos ids tx = (tx', true) →
    Forall2 (reordered from pos ids) (live tx) (live tx').
Proof.
  induction ids as [|id rest IH]; intros pos tx tx' H; simpl in H.
  - injection H as <-.
    apply Forall_Forall2_diag, Forall_forall. intros r _.
    split_and!; [done| |done]. intros _ Hin. inversion Hin.
  - destruct (fault pos); [discriminate|].
    pose proof (IH _ _ _ H) as Hrest. cbn [tx_update live] in Hrest.
    rewrite Forall2_fmap_l in Hrest.
    eapply Forall2_impl; [exact Hrest|].
    intros r r' (Hedge & Hin & Hout). simpl in *.
    pose proof (set_weight_same_edge from id pos r) as (He1 & He2 & He3 & He4 & He5).
    destruct Hedge as (E1 & E2 & E3 & E4 & E5).
    rewrite He1 in Hin, Hout. rewrite He2 in Hin, Hout.
    rewrite set_weight_weight in Hout.
    split; [unfold same_edge; split_and!; congruence|].
    destruct (decide (fromGuid r = from ∧ relID r ∈ rest)) as [[Hf Hr]|Hno].
    + destruct (Hin Hf Hr) as (i & Hi & Hw & Hlast). split.
      * intros _ _. exists (S i). split; [done|]. split; [rewrite Hw; f_equal; lia|].
        intros [|j] Hj; [lia|]. simpl in Hj. specialize (Hlast j Hj). lia.
      * intros Hcontra. exfalso. apply Hcontra. split; [done|].
        by apply list_elem_of_further.
    + specialize (Hout Hno).
      destruct (names_relation from id r) eqn:Hnames.
      * apply names_relation_true in Hnames as [Hf Hid]. split.
        -- intros _ _. exists 0. rewrite Hid. split; [done|].
           split; [rewrite Hout; f_equal; lia|].
           intros [|j] Hj; [lia|]. simpl in Hj. exfalso. apply Hno.
           split; [done|]. rewrite Hid. by eapply list_elem_of_lookup_2.
        -- intros Hcontra. exfalso. apply Hcontra. split; [done|].
           rewrite Hid. apply list_elem_of_here.
      * split; [|done]. intros Hf Hr. exfalso.
        apply elem_of_cons in Hr as [Hid|Hr]; [|by apply Hno].
        assert (names_relation from id r = true)
          by (by apply names_relation_true).
        congruence.
Qed.

Lemma all_found_named from ids rels :
  all_found from ids rels = true →
  ∀ n, n ∈ ids → ∃ r, r ∈ rels ∧ fromGuid r = from ∧ relID r = n.
Proof.
  unfold all_found. rewrite List.forallb_forall. intros Hall n Hn.
  apply list_elem_of_In in Hn. specialize (Hall n Hn).
  apply List.existsb_exists in Hall as (r & Hr & Hnames).
  apply names_relation_true in Hnames as [? ?].
  exists r. split; [by apply list_elem_of_In|done].
Qed.

(** A validated list has no identifier twice and names, with a relation
    of the entry, all its siblings. *)
Lemma is_sibling_group_closed from ids rels :
  is_sibling_group from ids rels = true →
  NoDup ids ∧
  ∀ r1 r2, r1 ∈ rels → r2 ∈ rels → fromGuid r1 = from → fromGuid r2 = from →
    relType r1 = relType r2 → relID r1 ∈ ids → relID r2 ∈ ids.
Proof.
  unfold is_sibling_group. intros H. apply andb_prop in H as [Hnd H].
  apply bool_decide_eq_true in Hnd. split; [done|].
  intros r1 r2 Hr1 Hr2 Hf1 Hf2 Hty Hin.
  destruct ids as [|id0 ids']; [inversion Hin|].
  destruct (List.find (names_relation from id0) rels) as [r0|]; [|discriminate].
  rewrite List.forallb_forall in H.
  assert (Hrow : ∀ r, r ∈ rels → fromGuid r = from →
            (relID r ∈ id0 :: ids' ↔ relType r = relType r0)).
  { intros r Hr Hf. apply list_elem_of_In in Hr. specialize (H r Hr).
    apply Bool.orb_prop in H as [H|H].
    { apply (proj2 (String.eqb_eq _ _)) in Hf. rewrite Hf in H. discriminate. }
    apply Bool.eqb_prop in H. rewrite <- listed_iff, H. apply String.eqb_eq. }
  apply (Hrow r2 Hr2 Hf2). rewrite <- Hty. by apply (Hrow r1 Hr1 Hf1).
Qed.

(** Renumbering a whole sibling group brings no tie. *)
Lemma reordered_no_ties g from ids rels' :
  Forall2 (reordered from 0 ids) (relations g) rels' →
  (∀ r1 r2, r1 ∈ relations g → r2 ∈ relations g →
     fromGuid r1 = from → fromGuid r2 = from →
     relType r1 = relType r2 → relID r1 ∈ ids → relID r2 ∈ ids) →
  no_ties g from →
  no_ties (mkGraph (entries g) rels' (nextRelID g)) from.
Proof.
  intros Hall Hclosed Hties r1' r2' Hr1' Hr2' Hf1 Hf2 Hty Hid. simpl in Hr1', Hr2'.
  apply list_elem_of_lookup_1 in Hr1' as [k1 Hk1].
  apply list_elem_of_lookup_1 in Hr2' as [k2 Hk2].
  destruct (Forall2_lookup_r _ _ _ _ _ Hall Hk1)
    as (r1 & Hl1 & (A1 & A2 & _ & A4 & _) & Hin1 & Hout1).
  destruct (Forall2_lookup_r _ _ _ _ _ Hall Hk2)
    as (r2 & Hl2 & (B1 & B2 & _ & B4 & _) & Hin2 & Hout2).
  apply list_elem_of_lookup_2 in Hl1, Hl2.
  assert (Hg1 : fromGuid r1 = from) by congruence.
  assert (Hg2 : fromGuid r2 = from) by congruence.
  assert (Hsame : relType r1 = relType r2) by congruence.
  assert (Hdiff : relID r1 ≠ relID r2) by congruence.
  destruct (decide (relID r1 ∈ ids)) as [Hm1|Hm1].
  - pose proof (Hclosed r1 r2 Hl1 Hl2 Hg1 Hg2 Hsame Hm1) as Hm2.
    destruct (Hin1 Hg1 Hm1) as (i1 & Hi1 & Hw1 & _).
    destruct (Hin2 Hg2 Hm2) as (i2 & Hi2 & Hw2 & _).
    rewrite Hw1, Hw2. intros Heq. apply Hdiff.
    assert (i1 = i2) by lia. subst i2. congruence.
  - assert (Hm2 : relID r2 ∉ ids).
    { intros Hm2. apply Hm1.
      by apply (Hclosed r2 r1 Hl2 Hl1 Hg2 Hg1). }
    rewrite Hout1, Hout2 by (by intros [_ ?]).
    by apply Hties.
Qed.

(** C5. [reorderRelations] is all-or-nothing: whenever it returns an
    error (a missing entry or relation, a list that is not a sibling
    group, a failure of the persistence layer at any write) the store is
    the one before the call. It returns no error for a validated list when
    no write fails. When it returns no error, the relations are the same
    edges as before, every listed identifier names a relation of the
    entry, every listed relation has its 0-based position in the list as
    weight, every relation not named in the list keeps its weight, and
    siblings that did not tie before do not tie after. *)
Theorem reorderRelations_positions (fault : nat -> bool) (g g' : Graph)
    (id : string) (ids : list nat) (err : option Error) :
  reorderRelations fault g id ids = (g', err) →
  (err ≠ None → g' = g)
  ∧ (has_entry g id = true → all_found id ids (relations g) = true →
     is_sibling_group id ids (relations g) = true →
     (∀ k, (k < length ids)%nat → fault k = false) → err = None)
  ∧ (err = None →
       entries g' = entries g ∧
       Forall2 same_edge (relations g) (relations g') ∧
       (∀ i n, ids !! i = Some n →
          ∃ r', r' ∈ relations g' ∧ fromGuid r' = id ∧ relID r' = n) ∧
       (∀ i r', r' ∈ relations g' → fromGuid r' = id →
          ids !! i = Some (relID r') → weight r' = Z.of_nat i) ∧
       (∀ k r r', relations g !! k = Some r → relations g' !! k = Some r' →
          ¬ (fromGuid r = id ∧ relID r ∈ ids) → weight r' = weight r) ∧
       (no_ties g id → no_ties g' id)).
Proof.
  unfold reorderRelations.
  destruct (has_entry g id); simpl; [|intros [= <- <-]; by split_and!].
  destruct (all_found id ids (relations g)) eqn:Hfound; simpl;
    [|intros [= <- <-]; by split_and!].
  destruct (is_sibling_group id ids (relations g)) eqn:Hvalid; simpl;
    [|intros [= <- <-]; by split_and!].
  destruct (tx_reorder id fault 0 ids (tx_begin (relations g))) as [tx ok] eqn:Hrun.
  destruct ok; intros [= <- <-].
  2:{ split_and!; [|intros _ _ _ Hfault|done].
      - intros _. rewrite (tx_reorder_rollback _ _ _ _ _ _ _ Hrun).
        unfold tx_rollback, tx_begin. simpl. by destruct g.
      - destruct (tx_reorder_completes id fault ids 0 (tx_begin (relations g)))
          as [tx' Hok]; [intros k Hk; apply Hfault; lia|].
        rewrite Hok in Hrun. discriminate. }
  split_and!; [done|done|]. intros _. simpl.
  pose proof (tx_reorder_reordered _ _ _ _ _ _ Hrun) as Hall.
  cbn [tx_begin live] in Hall.
  destruct (is_sibling_group_closed _ _ _ Hvalid) as [Hnd Hclosed].
  assert (Hlisted : ∀ i r', r' ∈ live tx → fromGuid r' = id →
            ids !! i = Some (relID r') → weight r' = Z.of_nat i).
  { intros i r' Hr' Hf Hi.
    apply list_elem_of_lookup_1 in Hr' as [k Hk].
    destruct (Forall2_lookup_r _ _ _ _ _ Hall Hk)
      as (r & _ & (E1 & E2 & _) & Hpos & _).
    rewrite <- E1, <- E2 in Hpos.
    destruct (Hpos Hf (list_elem_of_lookup_2 _ _ _ Hi)) as (j & Hj & -> & _).
    f_equal. by eapply NoDup_lookup. }
  split_and!; [done| | |done| |].
  - eapply Forall2_impl; [exact Hall|]. by intros r r' [? _].
  - intros i n Hi.
    destruct (all_found_named _ _ _ Hfound n (list_elem_of_lookup_2 _ _ _ Hi))
      as (r & Hr & Hf & Hn).
    apply list_elem_of_lookup_1 in Hr as [k Hk].
    destruct (Forall2_lookup_l _ _ _ _ _ Hall Hk)
      as (r' & Hk' & (E1 & E2 & _) & _).
    exists r'. split; [by eapply list_elem_of_lookup_2|]. split; congruence.
  - intros k r r' Hk Hk' Hno.
    destruct (Forall2_lookup_lr _ _ _ _ _ _ Hall Hk Hk') as (_ & _ & Hout).
    by apply Hout.
  - by apply (reordered_no_ties g id ids).
Qed.

Lemma reorderRelations_positions_witness :
  reorderRelations no_storage_fault g_mixed "1" [1; 0] = (g_mixed_reordered, None)
  ∧ (∀ k r r', relations g_mixed !! k = Some r →
       relations g_mixed_reordered !! k = Some r' →
       ¬ (fromGuid r = "1" ∧ relID r ∈ [1; 0]) → weight r' = weight r)
  ∧ no_ties g_mixed_reordered "1"
  ∧ (reorderRelations fault_second g_mixed "1" [1; 0]).1 = g_mixed.
Proof.
  split; [reflexivity|].
  destruct (reorderRelations_positions no_storage_fault g_mixed g_mixed_reordered
              "1" [1; 0] None eq_refl) as (_ & _ & Hok).
  destruct (Hok eq_refl) as (_ & _ & _ & _ & Hframe & Hties).
  split; [exact Hframe|]. split.
  - apply Hties. intros r1 r2 H1 H2 Hf1 Hf2 Hty Hid.
    route_cases H1; route_cases H2; simpl in *; congruence.
  - destruct (reorderRelations fault_second g_mixed "1" [1; 0]) as [g' e] eqn:Hrun.
    destruct (reorderRelations_positions fault_second g_mixed g' "1" [1; 0] e Hrun)
      as (Hfail & _).
    apply Hfail.
    assert (He : (reorderRelations fault_second g_mixed "1" [1; 0]).2
                 = Some StorageFailure) by reflexivity.
    rewrite Hrun in He. simpl in He. by rewrite He.
Defined.

(** The relations the list does not name: the translation of run and the
    synonym of sprint keep their weights. *)
Example reorderRelations_unnamed_kept :
  (fun r => (relID r, weight r)) <$>
    relations (reorderRelations no_storage_fault g_mixed "1" [1; 0]).1
  = [(0, 1%Z); (1, 0%Z); (2, 0%Z); (3, 0%Z)].
Proof. reflexivity. Qed.

(** Lists that are refused, with nothing written: a part of a sibling
    group, a relation of another group, an identifier twice, a relation
    of another entry. *)
Example reorderRelations_refused :
  reorderRelations no_storage_fault g_mixed "1" [1] = (g_mixed, Some ValidationError)
  ∧ reorderRelations no_storage_fault g_mixed "1" [1; 0; 2]
    = (g_mixed, Some ValidationError)
  ∧ reorderRelations no_storage_fault g_mixed "1" [1; 0; 1]
    = (g_mixed, Some ValidationError)
  ∧ reorderRelations no_storage_fault g_mixed "1" [1; 3] = (g_mixed, Some NotFound).
Proof. split_and!; reflexivity. Qed.

(** A write that fails after another one was made: the first is undone. *)
Example reorderRelations_rollback :
  (tx_reorder "1" fault_second 0 [1; 0] (tx_begin (relations g_mixed))).2 = false
  ∧ weight <$> live (tx_reorder "1" fault_second 0 [1; 0]
                       (tx_begin (relations g_mixed))).1 = [0; 0; 0; 0]%Z
  ∧ reorderRelations fault_second g_mixed "1" [1; 0] = (g_mixed, Some StorageFailure).
Proof. split_and!; reflexivity. Qed.

(** Section 8: after the reordering, jog has weight 0 and sprint weight 1. *)
Example reorderRelations_jog_first :
  reorderRelations no_storage_fault g_run_synonyms "1" [1; 0] = (g_run_reordered, None)
  ∧ (fun r => (toGuid r, weight r)) <$> relations g_run_reordered
    = [("2", 1%Z); ("3", 0%Z)].
Proof. split; reflexivity. Qed.

(** ** Further properties of the start-up code *)

(** *** How [initLangs] ends *)

(** How a turn of the loop ends does not depend on the state it starts
    from. *)
Lemma initLangs_lang_stateless env ko l s s' :
  (initLangs_lang env ko l s).1 = (initLangs_lang env ko l s').1.
Proof.
  unfold initLangs_lang.
  destruct (UnmarshalWithConf ko ("lang." +:+ l) _) as [lang [e|]]; [done|].
  unfold mbind, Proc_bind, bind, logger_Printf. simpl.
  destruct (String.eqb (TokenizerType lang) "plugin"); [|done].
  destruct (loadTokenizerPlugin env (TokenizerName lang)) as [[tk|] [e|]]; done.
Qed.

(** A turn touches neither the disk nor the write journal, only adds to
    the log, and has logged its language when it returns. *)
Lemma initLangs_lang_frame env ko l st o st' :
  initLangs_lang env ko l st = (o, st') →
  disk st' = disk st ∧ writes st' = writes st ∧
  logged st `prefix_of` logged st' ∧
  (returned o = true → ("language: " +:+ l) ∈ logged st').
Proof.
  unfold initLangs_lang.
  destruct (UnmarshalWithConf ko ("lang." +:+ l) _) as [lang [e|]].
  { intros [= <- <-]. done. }
  unfold mbind, Proc_bind, bind, logger_Printf, mret, Proc_ret, ret. simpl.
  destruct (String.eqb (TokenizerType lang) "plugin");
    [destruct (loadTokenizerPlugin env (TokenizerName lang)) as [[tk|] [e|]]|];
    intros [= <- <-]; simpl;
    (split_and!;
     [done | done | repeat rewrite <- app_assoc; by eexists
     | first [discriminate
             | intros _; rewrite ?elem_of_app, ?elem_of_cons; intuition]]).
Qed.

(** The loop stops at the first turn that does not return: the turns
    before it have returned, the languages after it are not looked at. *)
Lemma initLangs_range_first_halt env ko l post (o : Outcome data_Lang) :
  returned o = false →
  (∀ s, (initLangs_lang env ko l s).1 = o) →
  ∀ pre out st,
    (∀ k, k ∈ pre → ∀ s, returned (initLangs_lang env ko k s).1 = true) →
    (initLangs_range env ko (pre ++ l :: post) out st).1 =
      match o with
      | Ret _ => Ret out
      | Fatal msg => Fatal msg
      | Panic msg => Panic msg
      end.
Proof.
  intros Ho Hl pre. destruct o as [lang0|msg0|msg0]; [done|..].
  all: induction pre as [|k pre IH]; intros out st Hpre; simpl;
    unfold mbind, Proc_bind, bind.
  all: try (specialize (Hl st);
            destruct (initLangs_lang env ko l st) as [o' s']; simpl in Hl;
            by subst o').
  all: pose proof (Hpre k (list_elem_of_here _ _) st) as Hk;
    destruct (initLangs_lang env ko k st) as [[lang|msg|msg] s1]; try done;
    apply IH; intros k' Hk' s; apply Hpre; by apply list_elem_of_further.
Qed.

Lemma loads_ok_returns env ko k :
  loads_ok env ko k → ∀ s, returned (initLangs_lang env ko k s).1 = true.
Proof.
  intros (c & Hdec & Hplug) s. by eapply initLangs_lang_returns.
Qed.

(** X1. The first language that fails decides how [initLangs] ends: when
    the languages listed before it load, a decoding error ends the process
    with "error loading languages", a plugin error with "error loading
    tokenizer plugin for" that language, whatever is configured after it. *)
Theorem initLangs_first_failure (env : Env) (ko : Koanf) (st : State)
    (pre post : list string) (l : string) :
  MapKeys ko "lang" = pre ++ l :: post →
  (∀ k, k ∈ pre → loads_ok env ko k) →
  (∀ e, decode ko ("lang." +:+ l) = inr e →
     (initLangs env ko st).1 = Fatal ("error loading languages: " +:+ e))
  ∧ (∀ c e, decode ko ("lang." +:+ l) = inl c →
       cfg_tokenizer_type c = "plugin" →
       (loadTokenizerPlugin env (cfg_tokenizer c)).2 = Some e →
       (initLangs env ko st).1 =
         Fatal ("error loading tokenizer plugin for " +:+ l +:+ ": " +:+ e)).
Proof.
  intros Hkeys Hpre. unfold initLangs. rewrite Hkeys. split.
  - intros e Hdec.
    apply (initLangs_range_first_halt env ko l post
             (Fatal ("error loading languages: " +:+ e))); [done| |].
    + intros s. by rewrite (initLangs_lang_decode_error _ _ _ _ _ Hdec).
    + intros k Hk. by apply loads_ok_returns, Hpre.
  - intros c e Hdec Hty Hload.
    apply (initLangs_range_first_halt env ko l post
             (Fatal ("error loading tokenizer plugin for " +:+ l +:+ ": " +:+ e)));
      [done| |].
    + intros s.
      destruct (initLangs_lang_plugin_error env ko l c e s Hdec Hty Hload) as [s' ->].
      done.
    + intros k Hk. by apply loads_ok_returns, Hpre.
Qed.

Lemma initLangs_first_failure_witness :
  (initLangs env_stuffed ko_failing_plugin st_assets).1 =
    Fatal ("error loading tokenizer plugin for kannada: "
           +:+ "error initializing provider plugin 'indicphone_kn.tk': no ruleset")
  ∧ (initLangs env_stuffed ko_malformed st_assets).1 =
    Fatal "error loading languages: types: expected a map, got string".
Proof.
  assert (Henglish : ∀ k, k ∈ ["english"] → loads_ok env_stuffed ko_sample k).
  { intros k Hk. apply elem_of_cons in Hk as [->|Hk]; [|inversion Hk].
    exists conf_english. split; [reflexivity|]. simpl. discriminate. }
  split.
  - destruct (initLangs_first_failure env_stuffed ko_failing_plugin st_assets
                ["english"] [] "kannada" eq_refl Henglish) as [_ Hplugin].
    apply (Hplugin conf_kannada); [reflexivity|reflexivity|].
    vm_compute. reflexivity.
  - destruct (initLangs_first_failure env_stuffed ko_malformed st_assets
                ["english"] [] "tamil" eq_refl Henglish) as [Hdecode _].
    apply Hdecode. reflexivity.
Defined.

(** X2. A plugin whose [New] returns a nil tokenizer and a nil error is
    not reported through [log.Fatalf]: when it belongs to the first
    language that fails, [initLangs] panics on [tk.ID()]. *)
Theorem initLangs_nil_tokenizer_panics (env : Env) (ko : Koanf) (st : State)
    (pre post : list string) (l : string) (c : LangConf) :
  MapKeys ko "lang" = pre ++ l :: post →
  (∀ k, k ∈ pre → loads_ok env ko k) →
  decode ko ("lang." +:+ l) = inl c →
  cfg_tokenizer_type c = "plugin" →
  loadTokenizerPlugin env (cfg_tokenizer c) = (None, None) →
  (initLangs env ko st).1 = Panic nil_dereference.
Proof.
  intros Hkeys Hpre Hdec Hty Hload. unfold initLangs. rewrite Hkeys.
  apply (initLangs_range_first_halt env ko l post (Panic nil_dereference)); [done| |].
  - intros s. unfold initLangs_lang.
    rewrite (UnmarshalWithConf_fresh _ _ _ Hdec). simpl.
    rewrite Hty. simpl. by rewrite Hload.
  - intros k Hk. by apply loads_ok_returns, Hpre.
Qed.

Lemma initLangs_nil_tokenizer_panics_witness :
  (initLangs env_nil_plugin ko_sample st_assets).1 = Panic nil_dereference.
Proof.
  apply (initLangs_nil_tokenizer_panics env_nil_plugin ko_sample st_assets
           ["english"] [] "malayalam" conf_malayalam).
  - reflexivity.
  - intros k Hk. apply elem_of_cons in Hk as [->|Hk]; [|inversion Hk].
    exists conf_english. split; [reflexivity|]. simpl. discriminate.
  - reflexivity.
  - reflexivity.
  - vm_compute. reflexivity.
Defined.

(** A turn reads the configuration through [decode] only. *)
Lemma initLangs_lang_decode_only env ko ko' l :
  (∀ p, decode ko p = decode ko' p) →
  initLangs_lang env ko l = initLangs_lang env ko' l.
Proof.
  intros Hdec. unfold initLangs_lang, UnmarshalWithConf. by rewrite Hdec.
Qed.

(** X3. The language map does not depend on the order in which the
    configuration lists the languages: if [initLangs] returns a map for one
    listing, it returns the same map for any permutation of it, from any
    state. *)
Theorem initLangs_order_independent (env : Env) (ko ko' : Koanf)
    (st st1 st' : State) (out : data_LangMap) :
  (∀ p, decode ko p = decode ko' p) →
  MapKeys ko "lang" ≡ₚ MapKeys ko' "lang" →
  initLangs env ko st = (Ret out, st1) →
  (initLangs env ko' st').1 = Ret out.
Proof.
  intros Hdec Hperm Hrun.
  pose proof (initLangs_range_ret _ _ _ _ _ _ _ Hrun) as Hout.
  assert (Hturns : ∀ l, l ∈ MapKeys ko' "lang" →
            ∀ s, returned (initLangs_lang env ko' l s).1 = true).
  { intros l Hl s. rewrite <- Hperm in Hl.
    destruct (Hout l) as [Hin _]. destruct (Hin Hl) as (lang & s1 & s2 & Hlang & _).
    rewrite <- (initLangs_lang_decode_only env ko ko' l Hdec).
    rewrite (initLangs_lang_stateless env ko l s s1), Hlang. done. }
  pose proof (initLangs_range_returns env ko' _ Hturns ∅ st') as Hret.
  fold (initLangs env ko') in Hret.
  destruct (initLangs env ko' st') as [[out'|msg|msg] s2] eqn:Hrun'; try done.
  simpl. f_equal. apply map_eq. intros l.
  pose proof (initLangs_range_ret _ _ _ _ _ _ _ Hrun' l) as [Hin' Hnot'].
  destruct (Hout l) as [Hin Hnot].
  destruct (decide (l ∈ MapKeys ko "lang")) as [Hl|Hl].
  - destruct (Hin Hl) as (lang & a1 & a2 & Hlang & ->).
    rewrite Hperm in Hl.
    destruct (Hin' Hl) as (lang' & b1 & b2 & Hlang' & ->).
    rewrite <- (initLangs_lang_decode_only env ko ko' l Hdec) in Hlang'.
    pose proof (initLangs_lang_stateless env ko l a1 b1) as Hsame.
    rewrite Hlang, Hlang' in Hsame. simpl in Hsame. congruence.
  - rewrite (Hnot Hl). rewrite Hperm in Hl. by rewrite (Hnot' Hl).
Qed.

Lemma initLangs_order_independent_witness :
  ∃ out, (initLangs env_stuffed ko_sample st_assets).1 = Ret out ∧
         (initLangs env_stuffed ko_sample_rev st_configured).1 = Ret out.
Proof.
  destruct (initLangs env_stuffed ko_sample st_assets) as [o s1] eqn:Hrun.
  assert (Ho : returned o = true).
  { change o with (o, s1).1. rewrite <- Hrun. vm_compute. reflexivity. }
  destruct o as [out|msg|msg]; try discriminate.
  exists out. split; [done|].
  apply (initLangs_order_independent env_stuffed ko_sample ko_sample_rev
           st_assets s1 st_configured out).
  - reflexivity.
  - simpl. apply perm_swap.
  - exact Hrun.
Defined.

Lemma initLangs_range_frame env ko keys :
  ∀ out st o st',
    initLangs_range env ko keys out st = (o, st') →
    disk st' = disk st ∧ writes st' = writes st ∧
    logged st `prefix_of` logged st' ∧
    (returned o = true → ∀ l, l ∈ keys → ("language: " +:+ l) ∈ logged st').
Proof.
  induction keys as [|k rest IH]; intros out st o st' H; simpl in H.
  - injection H as <- <-. split_and!; try done. intros _ l Hl. inversion Hl.
  - unfold mbind, Proc_bind, bind in H.
    destruct (initLangs_lang env ko k st) as [ok s1] eqn:Hk.
    apply initLangs_lang_frame in Hk as (Hd & Hw & Hp & Hlog).
    destruct ok as [lang|msg|msg]; try (injection H as <- <-; done).
    apply IH in H as (Hd' & Hw' & Hp' & Hlog').
    split_and!; [congruence|congruence|by etrans|].
    intros Ho l Hl. apply elem_of_cons in Hl as [->|Hl]; [|by apply Hlog'].
    eapply elem_of_prefix; [|exact Hp']. by apply Hlog.
Qed.

(** X4. [initLangs] writes no file: however it ends, the disk and the
    write journal are as before and the log has only grown; when it
    returns, every configured language has its "language:" line logged. *)
Theorem initLangs_frame (env : Env) (ko : Koanf) (st st' : State)
    (o : Outcome data_LangMap) :
  initLangs env ko st = (o, st') →
  disk st' = disk st ∧ writes st' = writes st ∧
  logged st `prefix_of` logged st' ∧
  (returned o = true →
     ∀ l, l ∈ MapKeys ko "lang" → ("language: " +:+ l) ∈ logged st').
Proof.
  intros Hrun. unfold initLangs in Hrun.
  destruct (initLangs_range_frame _ _ _ _ _ _ _ Hrun) as (Hd & Hw & Hp & Hlog).
  split_and!; [exact Hd|exact Hw|exact Hp|].
  intros Ho l Hl. by apply Hlog.
Qed.

Lemma initLangs_frame_witness :
  disk (initLangs env_stuffed ko_failing_plugin st_configured).2 = disk st_configured
  ∧ logged (initLangs env_stuffed ko_failing_plugin st_configured).2
    = ["language: english"; "language: kannada"].
Proof.
  split.
  - destruct (initLangs env_stuffed ko_failing_plugin st_configured) as [o s'] eqn:Hrun.
    by destruct (initLangs_frame _ _ _ _ _ Hrun) as (Hd & _).
  - vm_compute. reflexivity.
Defined.

(** *** Asset files, once more *)

(** The runs of [initFileSystem], in one statement. *)
Lemma initFileSystem_runs env st :
  ∃ fs err st',
    initFileSystem env st = (Ret (fs, err), st') ∧
    (fs = None ↔ err ≠ None) ∧
    disk st' = disk st ∧ writes st' = writes st ∧
    logged st' = logged st ++
      match os_Executable env with
      | inr _ => []
      | inl path =>
          match stuffbin_UnStuff env path with
          | inl _ => []
          | inr e => local_mode_lines e
          end
      end.
Proof.
  destruct (os_Executable env) as [path|e] eqn:Hexe.
  2:{ unfold initFileSystem. rewrite Hexe. exists None, (Some e), st.
      rewrite app_nil_r. split_and!; done. }
  destruct (stuffbin_UnStuff env path) as [fs|e] eqn:Hun.
  { unfold initFileSystem. rewrite Hexe, Hun. exists (Some fs), None, st.
    rewrite app_nil_r. split_and!; first [done | split; [discriminate|done]]. }
  rewrite (initFileSystem_local _ _ _ _ Hexe Hun). cbv zeta.
  destruct (stuffbin_NewLocalFS env (disk st) "/" asset_files) as [fs|e'];
    eexists _, _, _; (split; [reflexivity|]); simpl;
    rewrite <- app_assoc; split_and!;
    first [done | split; [discriminate|done]].
Qed.

(** X5. [initFileSystem] always returns, and returns exactly one of a file
    system and an error. It leaves the disk and the write journal alone,
    and logs its two local-mode lines exactly when the executable is known
    and holds no embedded file system. *)
Theorem initFileSystem_one_result (env : Env) (st : State) :
  ∃ fs err st',
    initFileSystem env st = (Ret (fs, err), st') ∧
    (fs = None ↔ err ≠ None) ∧
    disk st' = disk st ∧ writes st' = writes st ∧
    logged st' = logged st ++
      match os_Executable env with
      | inr _ => []
      | inl path =>
          match stuffbin_UnStuff env path with
          | inl _ => []
          | inr e => local_mode_lines e
          end
      end.
Proof.
  destruct (initFileSystem_runs env st) as (fs & err & st' & Hrun & Hone & Hrest).
  exists fs, err, st'. split; [exact Hrun|]. split; [exact Hone|exact Hrest].
Qed.

(** Building a local file system fails when a named file is missing. *)
Lemma stuffbin_NewLocalFS_missing env d root paths p :
  p ∈ paths → d !! p = None →
  ∃ e, stuffbin_NewLocalFS env d root paths = inr e.
Proof.
  intros Hin Hmiss. induction paths as [|q rest IH]; [inversion Hin|]. simpl.
  destruct (read_fault env q); [eauto|].
  destruct (decide (p = q)) as [->|Hne].
  - rewrite Hmiss. eauto.
  - destruct (d !! q); [|eauto].
    apply elem_of_cons in Hin as [?|Hin]; [done|].
    destruct (IH Hin) as [e ->]. eauto.
Qed.

(** *** Generating config.toml, once more *)

(** The runs of [generateNewFiles], by their result. *)
Lemma generateNewFiles_runs env st :
  ∃ err st', generateNewFiles env st = (Ret err, st') ∧
    logged st `prefix_of` logged st' ∧
    ((err ≠ None ∧ disk st' = disk st ∧
      (writes st' = writes st ∨ write_fault env "config.toml" ≠ None))
     ∨ (err = None ∧ stat_fault env "config.toml" = None ∧
        disk st !! "config.toml" = None ∧
        ∃ b, disk st' = <["config.toml" := b]> (disk st))).
Proof.
  unfold generateNewFiles, mbind, Proc_bind, bind, mret, Proc_ret, ret.
  destruct (os_Stat_returns env st "config.toml") as [serr Hstat]. rewrite Hstat.
  destruct (os_IsNotExist serr) eqn:Hne; simpl.
  2:{ eexists _, st. split; [reflexivity|]. split; [done|]. left. split_and!; auto. }
  assert (Hfault : stat_fault env "config.toml" = None ∧ disk st !! "config.toml" = None).
  { unfold os_Stat in Hstat. destruct (stat_fault env "config.toml").
    - injection Hstat as <-. discriminate.
    - destruct (disk st !! "config.toml"); [|done].
      injection Hstat as <-. discriminate. }
  destruct (initFileSystem_runs env st)
    as (fs & err & s1 & Hfs & Hone & Hd & Hw & Hlog).
  rewrite Hfs.
  assert (Hp : logged st `prefix_of` logged s1) by (rewrite Hlog; by eexists).
  destruct err as [e|].
  { destruct fs; eexists _, s1; (split; [reflexivity|]); (split; [done|]);
      left; split_and!; auto. }
  destruct fs as [fs|]; [|exfalso; by apply Hone].
  unfold fs_Read. destruct (fs !! "config.toml.sample") as [b|].
  2:{ eexists _, s1. split; [reflexivity|]. split; [done|]. left. split_and!; auto. }
  unfold ioutil_WriteFile.
  destruct (write_fault env "config.toml") as [e|] eqn:Hwf.
  - eexists _, _. split; [reflexivity|]. simpl. split; [done|]. left.
    split_and!; [done|done|]. right. done.
  - eexists _, _. split; [reflexivity|]. simpl. split; [done|]. right.
    destruct Hfault. split_and!; try done. exists b. by rewrite Hd.
Qed.

(** X6. [generateNewFiles] always returns, with or without an error: it
    neither exits nor panics, its file system being never nil when it is
    read. It calls [ioutil.WriteFile] at most once, for the name
    config.toml and no other; it returns no error only after that call;
    and the log has only grown. *)
Theorem generateNewFiles_one_write (env : Env) (st : State) :
  ∃ err st', generateNewFiles env st = (Ret err, st') ∧
    (writes st' = writes st ∨ ∃ b, writes st' = writes st ++ [("config.toml", b)]) ∧
    (err = None → ∃ b, writes st' = writes st ++ [("config.toml", b)]) ∧
    logged st `prefix_of` logged st'.
Proof.
  unfold generateNewFiles, mbind, Proc_bind, bind, mret, Proc_ret, ret.
  destruct (os_Stat_returns env st "config.toml") as [serr Hstat]. rewrite Hstat.
  destruct (os_IsNotExist serr); simpl.
  2:{ eexists _, st. split; [reflexivity|]. split_and!; [by left|done|done]. }
  destruct (initFileSystem_runs env st)
    as (fs & err & s1 & Hfs & Hone & Hd & Hw & Hlog).
  rewrite Hfs.
  assert (Hp : logged st `prefix_of` logged s1) by (rewrite Hlog; by eexists).
  destruct err as [e|].
  { destruct fs; eexists _, s1; (split; [reflexivity|]);
      split_and!; [by left|done|done|by left|done|done]. }
  destruct fs as [fs|]; [|exfalso; by apply Hone].
  unfold fs_Read. destruct (fs !! "config.toml.sample") as [b|].
  2:{ eexists _, s1. split; [reflexivity|]. split_and!; [by left|done|done]. }
  unfold ioutil_WriteFile.
  destruct (write_fault env "config.toml") as [e|];
    eexists _, _; (split; [reflexivity|]); simpl; rewrite Hw;
    (split_and!; [right; by exists b | first [done | intros _; by exists b] | done]).
Qed.

(** X7. A second call after a successful one changes nothing: when
    [generateNewFiles] has returned no error, calling it again returns
    "config.toml exists" and leaves the state as the first call left it. *)
Theorem generateNewFiles_second_call (env : Env) (st st1 : State) :
  generateNewFiles env st = (Ret None, st1) →
  generateNewFiles env st1 = (Ret (Some exists_error), st1).
Proof.
  intros Hrun.
  destruct (generateNewFiles_runs env st) as (err & st' & Hrun' & _ & Hcases).
  rewrite Hrun in Hrun'. injection Hrun' as <- <-.
  destruct Hcases as [(Herr & _)|(_ & _ & _ & b & Hdisk)]; [done|].
  unfold generateNewFiles, mbind, Proc_bind, bind.
  destruct (os_Stat_existing env st1 "config.toml") as (serr & -> & ->); [|done].
  rewrite Hdisk, lookup_insert_eq. eauto.
Qed.

Lemma generateNewFiles_second_call_witness :
  (generateNewFiles env_plain st_assets).1 = Ret None
  ∧ (generateNewFiles env_plain (generateNewFiles env_plain st_assets).2).1
    = Ret (Some exists_error).
Proof.
  destruct (generateNewFiles env_plain st_assets) as [o s1] eqn:Hrun.
  assert (Ho : o = Ret None).
  { change o with (o, s1).1. rewrite <- Hrun. vm_compute. reflexivity. }
  subst o. split; [done|]. simpl.
  by rewrite (generateNewFiles_second_call env_plain st_assets s1 Hrun).
Defined.

(** X8. In local mode all three asset files must be on disk, although
    only config.toml.sample is copied: when the executable holds no
    embedded file system and one of config.toml.sample, queries.sql and
    schema.sql is missing, [generateNewFiles] returns an error and writes
    nothing. *)
Theorem generateNewFiles_local_needs_all_assets (env : Env) (st : State)
    (path e p : string) :
  os_Executable env = inl path →
  stuffbin_UnStuff env path = inr e →
  p ∈ asset_files →
  disk st !! p = None →
  ∃ msg st', generateNewFiles env st = (Ret (Some msg), st') ∧
             disk st' = disk st ∧ writes st' = writes st.
Proof.
  intros Hexe Hun Hp Hmiss.
  unfold generateNewFiles, mbind, Proc_bind, bind, mret, Proc_ret, ret.
  destruct (os_Stat_returns env st "config.toml") as [serr Hstat]. rewrite Hstat.
  destruct (os_IsNotExist serr); simpl; [|by eexists _, _].
  rewrite (initFileSystem_local _ _ _ _ Hexe Hun). cbv zeta.
  destruct (stuffbin_NewLocalFS_missing env (disk st) "/" asset_files p Hp Hmiss)
    as [e' ->].
  by eexists _, _.
Qed.

Lemma generateNewFiles_local_needs_all_assets_witness :
  ∃ msg st', generateNewFiles env_plain st_no_schema = (Ret (Some msg), st') ∧
             disk st' = disk st_no_schema ∧ writes st' = writes st_no_schema.
Proof.
  apply (generateNewFiles_local_needs_all_assets env_plain st_no_schema
           "/usr/bin/dictmaker" "stuffbin: no stuffed data" "schema.sql").
  - reflexivity.
  - reflexivity.
  - unfold asset_files. do 2 apply list_elem_of_further. apply list_elem_of_here.
  - vm_compute. reflexivity.
Defined.

(** X9. Any [os.Stat] error other than "not exist" is taken for an
    existing file: when config.toml cannot be examined, [generateNewFiles]
    answers "config.toml exists" and does nothing, whether or not the file
    is there. *)
Theorem generateNewFiles_stat_error_reads_as_exists (env : Env) (st : State)
    (e : string) :
  stat_fault env "config.toml" = Some e →
  generateNewFiles env st = (Ret (Some exists_error), st).
Proof.
  intros Hfault. unfold generateNewFiles, mbind, Proc_bind, bind, os_Stat.
  by rewrite Hfault.
Qed.

Lemma generateNewFiles_stat_error_reads_as_exists_witness :
  generateNewFiles env_stat_denied st_assets = (Ret (Some exists_error), st_assets)
  ∧ disk st_assets !! "config.toml" = None.
Proof.
  split.
  - apply (generateNewFiles_stat_error_reads_as_exists env_stat_denied st_assets
             "permission denied").
    reflexivity.
  - vm_compute. reflexivity.
Defined.

(** *** Routes, once more *)

Lemma register_all_middlewares regs :
  ∀ r, middlewares (register_all regs r) = middlewares r.
Proof.
  induction regs as [|rt regs IH]; intros r; [done|].
  change (register_all (rt :: regs) r)
    with (register_all regs (Handle (method rt) (pattern rt) (handler rt) r)).
  by rewrite IH.
Qed.

(** X10. [initHandlers] registers no method and pattern twice, with or
    without a site: no handler it registers replaces another one. *)
Theorem initHandlers_no_route_twice (r : Mux) (app : App) :
  NoDup (route_key <$> registered r app).
Proof.
  destruct (registered_eq r app) as [_ ->].
  destruct (String.eqb (Site (constants app)) "");
    apply (bool_decide_unpack _); vm_compute; reflexivity.
Qed.

(** X11. On a mux that holds no route yet, [initHandlers] keeps the
    middlewares already there and adds [StripSlashes] after them, once;
    the routes of the result are exactly those it registers, and they do
    not depend on the middlewares the mux held. *)
Theorem initHandlers_middleware (r r' : Mux) (app : App) :
  routes r = [] → routes r' = [] →
  middlewares (initHandlers r app) = middlewares r ++ [StripSlashes]
  ∧ routes (initHandlers r app) = registered r app
  ∧ registered r app = registered r' app.
Proof.
  intros Hr Hr'. split_and!.
  - rewrite initHandlers_register_all, register_all_middlewares. done.
  - destruct (registered_eq r app) as [-> _]. by rewrite Hr.
  - destruct (registered_eq r app) as [_ ->].
    by destruct (registered_eq r' app) as [_ ->].
Qed.

Lemma initHandlers_middleware_witness :
  middlewares (initHandlers (mkMux [] []) (mkApp (mkConsts "site"))) = [StripSlashes]
  ∧ registered (mkMux [] []) (mkApp (mkConsts "site"))
    = registered (mkMux [StripSlashes] []) (mkApp (mkConsts "site")).
Proof.
  destruct (initHandlers_middleware (mkMux [] []) (mkMux [StripSlashes] [])
              (mkApp (mkConsts "site")) eq_refl eq_refl) as (Hmw & _ & Hsame).
  split; [exact Hmw|exact Hsame].
Defined.

(** *** Templates *)

Lemma theme_funcs_registered :
  Funcs {[ "UnicodeURL" := UnicodeURL ]}
    (Funcs {[ "Title" := strings_Title ]}
       (Funcs {[ "ToLower" := strings_ToLower ]}
          (Funcs {[ "ToUpper" := strings_ToUpper ]}
             (Funcs {[ "JoinStrings" := strings_Join ]} (template_New "theme")))))
  = mkTemplate "theme" theme_funcs ∅.
Proof.
  unfold Funcs, template_New, theme_funcs. simpl. f_equal;
    try (rewrite (right_id_L ∅ (∪)); by rewrite <- !insert_union_singleton_l).
Qed.

Lemma ParseGlob_keeps tf pattern t :
  tplName (ParseGlob tf pattern t).1 = tplName t ∧
  tplFuncs (ParseGlob tf pattern t).1 = tplFuncs t ∧
  (ParseGlob tf pattern t).2 = (glob_parse tf (tplFuncs t) pattern).2.
Proof.
  unfold ParseGlob. by destruct (glob_parse tf (tplFuncs t) pattern).
Qed.

(** X12. [loadSiteTheme] always returns a template named "theme" that
    holds the five helper functions, also when it returns an error. Both
    patterns are parsed with these helpers. An error of the theme pattern
    is returned as it is and the pages are then not parsed, whatever
    [loadPages] says; without such an error the result is that of the pages
    pattern when [loadPages] is set, and no error when it is not. *)
Theorem loadSiteTheme_result (tf : TemplateFiles) (path : string) (loadPages : bool) :
  tplName (loadSiteTheme tf path loadPages).1 = "theme"
  ∧ tplFuncs (loadSiteTheme tf path loadPages).1 = theme_funcs
  ∧ (∀ e, (glob_parse tf theme_funcs (path +:+ "/*.html")).2 = Some e →
       (loadSiteTheme tf path loadPages).2 = Some e ∧
       loadSiteTheme tf path true = loadSiteTheme tf path false)
  ∧ ((glob_parse tf theme_funcs (path +:+ "/*.html")).2 = None →
       (loadSiteTheme tf path loadPages).2 =
         if loadPages
         then (glob_parse tf theme_funcs (path +:+ "/pages/*.html")).2
         else None).
Proof.
  unfold loadSiteTheme. cbv zeta. rewrite theme_funcs_registered.
  pose proof (ParseGlob_keeps tf (path +:+ "/*.html") (mkTemplate "theme" theme_funcs ∅))
    as (Hn & Hf & He).
  destruct (ParseGlob tf (path +:+ "/*.html") _) as [t err].
  simpl in Hn, Hf, He. rewrite <- He.
  destruct err as [e|].
  { simpl. split_and!; try done; intros e' [= <-]; done. }
  pose proof (ParseGlob_keeps tf (path +:+ "/pages/*.html") t) as (Hn' & Hf' & He').
  rewrite Hf in He'. rewrite <- He'.
  destruct loadPages; [|split_and!; done].
  destruct (ParseGlob tf (path +:+ "/pages/*.html") t) as [t' [e|]];
    simpl in *; split_and!; try done; congruence.
Qed.

Lemma loadSiteTheme_result_witness :
  (loadSiteTheme tf_sample "site" true).2 =
    Some "template: about.html:1: unexpected EOF"
  ∧ (loadSiteTheme tf_sample "site" false).2 = None
  ∧ loadSiteTheme tf_sample "nowhere" true = loadSiteTheme tf_sample "nowhere" false.
Proof.
  destruct (loadSiteTheme_result tf_sample "site" true) as (_ & _ & _ & Hpages).
  destruct (loadSiteTheme_result tf_sample "site" false) as (_ & _ & _ & Hplain).
  destruct (loadSiteTheme_result tf_sample "nowhere" true) as (_ & _ & Herr & _).
  split_and!.
  - rewrite Hpages; reflexivity.
  - rewrite Hplain; reflexivity.
  - by destruct (Herr "html/template: pattern matches no files" eq_refl).
Defined.

(** X13. [initAdminTemplates] parses with no helper function at hand and,
    unlike [loadSiteTheme], does not return a parse error: the process
    exits with "error loading admin templates". It returns, a template
    named "admin" without functions, exactly when the pattern parses; the
    state is untouched either way. *)
Theorem initAdminTemplates_result (tf : TemplateFiles) (path : string) (st : State) :
  (∀ e, (glob_parse tf ∅ (path +:+ "/*.html")).2 = Some e →
     initAdminTemplates tf path st =
       (Fatal ("error loading admin templates: " +:+ e), st))
  ∧ ((glob_parse tf ∅ (path +:+ "/*.html")).2 = None →
       ∃ t, initAdminTemplates tf path st = (Ret t, st) ∧
            tplName t = "admin" ∧ tplFuncs t = ∅)
  ∧ (returned (initAdminTemplates tf path st).1 = true ↔
       (glob_parse tf ∅ (path +:+ "/*.html")).2 = None).
Proof.
  unfold initAdminTemplates.
  pose proof (ParseGlob_keeps tf (path +:+ "/*.html") (template_New "admin"))
    as (Hn & Hf & He).
  destruct (ParseGlob tf (path +:+ "/*.html") (template_New "admin")) as [t err].
  simpl in Hn, Hf, He. rewrite <- He.
  destruct err as [e|]; simpl; split_and!; try done;
    first [by intros e' [= <-] | intros _; by exists t].
Qed.

Lemma initAdminTemplates_result_witness :
  initAdminTemplates tf_sample "admin" st_assets =
    (Fatal "error loading admin templates: html/template: pattern matches no files",
     st_assets)
  ∧ returned (initAdminTemplates tf_sample "site" st_assets).1 = true.
Proof.
  destruct (initAdminTemplates_result tf_sample "admin" st_assets) as (Hfatal & _).
  destruct (initAdminTemplates_result tf_sample "site" st_assets) as (_ & _ & Hret).
  split.
  - apply (Hfatal "html/template: pattern matches no files"). reflexivity.
  - apply Hret. reflexivity.
Defined.

(** *** Database connection *)

Lemma string_append_assoc (a b c : string) : (a +:+ b) +:+ c = a +:+ b +:+ c.
Proof.
  induction a as [|x a IH]; [done|].
  change (String x ((a +:+ b) +:+ c) = String x (a +:+ b +:+ c)).
  by rewrite IH.
Qed.

(** X14. [connectDB] splices its arguments into the data source name
    unquoted: a password that goes on with " password=q" asks for the same
    connection as a user name that ends with " password=p", so the two
    calls cannot be told apart and give the same result. *)
Theorem connectDB_unquoted (sqlx_Connect : string -> string -> DB + string)
    (host : string) (port : Z) (user p q dbName : string) :
  connectDB sqlx_Connect host port user (p +:+ " password=" +:+ q) dbName
  = connectDB sqlx_Connect host port (user +:+ " password=" +:+ p) q dbName.
Proof.
  unfold connectDB. do 2 f_equal. by rewrite !string_append_assoc.
Qed.

(** *** Start-up without plugins, and with a stuffed binary *)

Lemma initLangs_lang_no_plugin env env' ko l s :
  (∀ c, decode ko ("lang." +:+ l) = inl c → cfg_tokenizer_type c ≠ "plugin") →
  initLangs_lang env ko l s = initLangs_lang env' ko l s.
Proof.
  intros Hty. unfold initLangs_lang.
  destruct (decode ko ("lang." +:+ l)) as [c|e] eqn:Hdec.
  - rewrite (UnmarshalWithConf_fresh _ _ _ Hdec). simpl.
    specialize (Hty c eq_refl). apply String.eqb_neq in Hty. by rewrite Hty.
  - unfold UnmarshalWithConf. by rewrite Hdec.
Qed.

(** X15. No plugin is opened for a language whose tokenizer type is not
    "plugin": when no configured language has that type, [initLangs] ends
    in the same way and in the same state whatever plugins exist. *)
Theorem initLangs_without_plugins (env env' : Env) (ko : Koanf) (st : State) :
  (∀ l c, l ∈ MapKeys ko "lang" → decode ko ("lang." +:+ l) = inl c →
          cfg_tokenizer_type c ≠ "plugin") →
  initLangs env ko st = initLangs env' ko st.
Proof.
  unfold initLangs. generalize (∅ : data_LangMap) as out. revert st.
  induction (MapKeys ko "lang") as [|k rest IH]; intros st out Hty; [done|].
  simpl. unfold mbind, Proc_bind, bind.
  rewrite (initLangs_lang_no_plugin env env' ko k st)
    by (intros c; apply Hty, list_elem_of_here).
  destruct (initLangs_lang env' ko k st) as [[lang|msg|msg] s1]; try done.
  apply IH. intros l c Hl. apply Hty. by apply list_elem_of_further.
Qed.

Lemma initLangs_without_plugins_witness :
  initLangs env_stuffed ko_english st_assets
  = initLangs env_nil_plugin ko_english st_assets.
Proof.
  apply initLangs_without_plugins.
  intros l c Hl Hdec. apply elem_of_cons in Hl as [->|Hl]; [|inversion Hl].
  injection Hdec as <-. discriminate.
Defined.

(** X16. With a stuffed binary no asset file is needed on disk: when the
    embedded file system holds config.toml.sample, config.toml does not
    exist and can be examined and written, [generateNewFiles] returns no
    error, has written config.toml with the sample's contents and nothing
    else, and has logged nothing. *)
Theorem generateNewFiles_from_embedded (env : Env) (st : State)
    (path : string) (fs : FileSystem) (b : string) :
  os_Executable env = inl path →
  stuffbin_UnStuff env path = inl fs →
  fs !! "config.toml.sample" = Some b →
  stat_fault env "config.toml" = None →
  disk st !! "config.toml" = None →
  write_fault env "config.toml" = None →
  generateNewFiles env st =
    (Ret None,
     mkState (logged st) (<["config.toml" := b]> (disk st))
             (writes st ++ [("config.toml", b)])).
Proof.
  intros Hexe Hun Hb Hstat Hnone Hwrite.
  unfold generateNewFiles, mbind, Proc_bind, bind, os_Stat.
  rewrite Hstat, Hnone. simpl.
  unfold initFileSystem. rewrite Hexe, Hun. simpl.
  unfold fs_Read. rewrite Hb.
  unfold ioutil_WriteFile. by rewrite Hwrite.
Qed.

Lemma generateNewFiles_from_embedded_witness :
  generateNewFiles env_stuffed st_empty =
    (Ret None, mkState [] {[ "config.toml" := "[app]" ]} [("config.toml", "[app]")]).
Proof.
  apply (generateNewFiles_from_embedded env_stuffed st_empty "/usr/bin/dictmaker"
           {[ "config.toml.sample" := "[app]" ]} "[app]"); reflexivity.
Defined.
